(** * A shallow embedding of the hierarchical state-machine engine

    The development follows [src/src/state_machine.c] and the data
    declarations of [src/inc/state_machine.h].

    - The caller-owned, pointer-linked graph of [struct state] objects is an
      arena: a non-null [struct state *] is a [state_ref], the arena [heap]
      maps every reference to the object it designates, and a nullable
      pointer is an [option].  Pointer comparison is comparison of
      references.
    - [void *] payloads are opaque machine words ([opaque]); the engine only
      passes them on.
    - A guard is a predicate of the transition's condition and the event; it
      is modelled as a Rocq function.  The three action hooks ([action_entry],
      [action_exti] and a transition's [action]) are procedures: a non-null
      hook is a [fn_ref], and an invocation is recorded, with its arguments,
      in the list of [call]s that the engine returns.  The hooks do not write
      to the machine or to the graph.
    - The engine does not detect cycles in parent chains or entry chains, so
      both loops of [statem_handle_event] take fuel; [None] stands for a run
      that has not finished within the given number of iterations. *)

From Stdlib Require Import ZArith List Bool Arith Lia.
Import ListNotations.

Open Scope Z_scope.

(** ** Data model ([state_machine.h]) *)

Definition state_ref := nat.
Definition fn_ref := nat.
Definition opaque := Z.

(** [struct event]; the member [data] is named [payload] here, since
    [struct state] has a member [data] as well. *)
Record event := mk_event {
  type : Z;
  payload : opaque
}.

Record transition := mk_transition {
  event_type : Z;
  condition : opaque;
  guard : option (opaque -> event -> bool);
  action : option fn_ref;
  state_next : option state_ref
}.

(** [struct state]; the array [transitions] of length [transition_nums] is
    the list [transitions]. *)
Record state := mk_state {
  state_parent : option state_ref;
  state_entry : option state_ref;
  transitions : list transition;
  data : opaque;
  action_entry : option fn_ref;
  action_exti : option fn_ref
}.

Definition transition_nums (s : state) : nat := length (transitions s).

Record state_machine := mk_state_machine {
  state_current : option state_ref;
  state_previous : option state_ref;
  state_error : option state_ref
}.

Definition graph := state_ref -> state.

(** [enum statem_handle_event_return_vals] *)
Definition STATEM_ERR_ARG : Z := -2.
Definition STATEM_ERR_STATE_RECHED : Z := -1.
Definition STATEM_STATE_CHANGED : Z := 0.
Definition STATEM_STATE_LOOPSELF : Z := 1.
Definition STATEM_STATE_NOCHANGE : Z := 2.
Definition STATEM_FINAL_STATE_RECHED : Z := 3.

(** ** Observable effects *)

(** One invocation of an action hook, with the arguments it received. *)
Inductive call :=
| call_exit (f : fn_ref) (state_data : opaque) (ev : event)
| call_action (f : fn_ref) (state_current_data : opaque) (ev : event)
    (state_new_data : opaque)
| call_entry (f : fn_ref) (state_data : opaque) (ev : event).

(** What a call of the engine leaves behind: the returned [int], the contents
    of the machine object afterwards ([None] when the machine pointer was
    null) and the hooks invoked, in order. *)
Record outcome := mk_outcome {
  retval : Z;
  machine : option state_machine;
  calls : list call
}.

(** The result of a function that reads through a pointer it has not
    checked. *)
Inductive checked (A : Type) :=
| Returns (a : A)
| NullDereference.
Arguments Returns {A} a.
Arguments NullDereference {A}.

Definition ptr_eqb (p q : option state_ref) : bool :=
  match p, q with
  | Some a, Some b => Nat.eqb a b
  | None, None => true
  | _, _ => false
  end.

(** [if (f) f(args)] for a nullable hook. *)
Definition invoke (f : option fn_ref) (mk : fn_ref -> call) : list call :=
  match f with
  | Some fn => [mk fn]
  | None => []
  end.

(** ** The engine ([state_machine.c]) *)

(** The [for] loop of [get_transition], over the entries not yet visited. *)
Fixpoint scan_transitions (ts : list transition) (e : event)
  : option transition :=
  match ts with
  | [] => None
  | t :: rest =>
      if event_type t =? type e then
        match guard t with
        | None => Some t
        | Some g => if g (condition t) e then Some t
                    else scan_transitions rest e
        end
      else scan_transitions rest e
  end.

Section Engine.

Variable heap : graph.

Definition statem_init (fsm : option state_machine)
    (state_init state_err : option state_ref) : outcome :=
  match fsm with
  | None => mk_outcome (-1) None []
  | Some _ =>
      mk_outcome 0
        (Some {| state_current := state_init;
                 state_previous := None;
                 state_error := state_err |})
        []
  end.

Definition go_to_state_error (fsm : state_machine) (e : event)
  : state_machine * list call :=
  let fsm' := {| state_current := state_error fsm;
                 state_previous := state_current fsm;
                 state_error := state_error fsm |} in
  (fsm',
   match state_current fsm' with
   | Some s =>
       invoke (action_entry (heap s))
              (fun f => call_entry f (data (heap s)) e)
   | None => []
   end).

Definition get_transition (st : option state_ref) (e : event)
  : option transition :=
  match st with
  | None => None
  | Some s => scan_transitions (transitions (heap s)) e
  end.

(** [while (state_next->state_entry) state_next = state_next->state_entry;] *)
Fixpoint descend (fuel : nat) (s : state_ref) : option state_ref :=
  match state_entry (heap s) with
  | None => Some s
  | Some child =>
      match fuel with
      | O => None
      | S k => descend k child
      end
  end.

(** The test [!s->transition_nums && !s->state_parent]. *)
Definition is_final (s : state_ref) : bool :=
  Nat.eqb (transition_nums (heap s)) 0 &&
  match state_parent (heap s) with
  | None => true
  | Some _ => false
  end.

(** The part of [statem_handle_event] that follows the descent, for the
    matched transition [t] and the resolved target [target]; [cur] is the
    non-null [fsm->state_current]. *)
Definition take_transition (fsm : state_machine) (e : event)
    (cur : state_ref) (t : transition) (target : state_ref) : outcome :=
  let exits :=
    if negb (Nat.eqb target cur)
    then invoke (action_exti (heap cur))
                (fun f => call_exit f (data (heap cur)) e)
    else [] in
  let acts :=
    invoke (action t)
           (fun f => call_action f (data (heap cur)) e (data (heap target))) in
  let entries :=
    if negb (Nat.eqb target cur)
    then invoke (action_entry (heap target))
                (fun f => call_entry f (data (heap target)) e)
    else [] in
  let fsm' := {| state_current := Some target;
                 state_previous := state_current fsm;
                 state_error := state_error fsm |} in
  let r :=
    if ptr_eqb (state_current fsm') (state_previous fsm')
    then STATEM_STATE_LOOPSELF
    else if ptr_eqb (state_current fsm') (state_error fsm')
    then STATEM_ERR_STATE_RECHED
    else if is_final target
    then STATEM_FINAL_STATE_RECHED
    else STATEM_STATE_CHANGED in
  mk_outcome r (Some fsm') (exits ++ acts ++ entries).

(** The [do ... while (state_next)] loop; [st] is the local [state_next] at
    the top of an iteration. *)
Fixpoint dispatch (fuel : nat) (fsm : state_machine) (e : event)
    (cur : state_ref) (st : state_ref) : option outcome :=
  match fuel with
  | O => None
  | S k =>
      match get_transition (Some st) e with
      | None =>
          match state_parent (heap st) with
          | Some parent => dispatch k fsm e cur parent
          | None => Some (mk_outcome STATEM_STATE_NOCHANGE (Some fsm) [])
          end
      | Some t =>
          match state_next t with
          | None =>
              let '(fsm', cs) := go_to_state_error fsm e in
              Some (mk_outcome STATEM_ERR_STATE_RECHED (Some fsm') cs)
          | Some next =>
              match descend k next with
              | None => None
              | Some target => Some (take_transition fsm e cur t target)
              end
          end
      end
  end.

Definition statem_handle_event (fuel : nat) (fsm : option state_machine)
    (ev : option event) : option outcome :=
  match fsm, ev with
  | Some m, Some e =>
      match state_current m with
      | None =>
          let '(m', cs) := go_to_state_error m e in
          Some (mk_outcome STATEM_ERR_STATE_RECHED (Some m') cs)
      | Some cur =>
          if is_final cur
          then Some (mk_outcome STATEM_STATE_NOCHANGE (Some m) [])
          else dispatch fuel m e cur cur
      end
  | _, _ => Some (mk_outcome STATEM_ERR_ARG fsm [])
  end.

Definition statem_state_current (fsm : option state_machine)
  : option state_ref :=
  match fsm with
  | None => None
  | Some m => state_current m
  end.

Definition statem_state_previous (fsm : option state_machine)
  : option state_ref :=
  match fsm with
  | None => None
  | Some m => state_previous m
  end.

Definition statem_stopped (fsm : option state_machine) : checked Z :=
  match fsm with
  | None => Returns (-1)
  | Some m =>
      match state_current m with
      | None => NullDereference
      | Some s =>
          Returns (if Nat.eqb (transition_nums (heap s)) 0 then 1 else 0)
      end
  end.

End Engine.

(** ** Vocabulary of the specification *)

(** A table entry matches an event when its [event_type] is the event's type
    and its guard is absent or holds of the entry's condition and the
    event. *)
Definition enabled (e : event) (t : transition) : bool :=
  (event_type t =? type e) &&
  match guard t with
  | None => true
  | Some g => g (condition t) e
  end.

(** The first matching entry of a table, in declaration order. *)
Definition first_enabled (ts : list transition) (e : event)
  : option transition :=
  find (enabled e) ts.

Definition unconditional (t : transition) : Prop := guard t = None.

Section Chains.

Variable heap : graph.

(** [entry_leaf s leaf]: following [state_entry] from [s] ends at [leaf]. *)
Inductive entry_leaf : state_ref -> state_ref -> Prop :=
| entry_leaf_here s :
    state_entry (heap s) = None -> entry_leaf s s
| entry_leaf_down s child leaf :
    state_entry (heap s) = Some child ->
    entry_leaf child leaf ->
    entry_leaf s leaf.

(** The chain of [state_entry] pointers from [s] is finite. *)
Inductive entry_chain_finite : state_ref -> Prop :=
| entry_chain_end s :
    state_entry (heap s) = None -> entry_chain_finite s
| entry_chain_step s child :
    state_entry (heap s) = Some child ->
    entry_chain_finite child ->
    entry_chain_finite s.

(** [chain_match s e t]: walking from [s] up the parent chain, the first
    table with an entry that matches [e] has [t] as its first such entry. *)
Inductive chain_match : state_ref -> event -> transition -> Prop :=
| chain_match_here s e t :
    first_enabled (transitions (heap s)) e = Some t ->
    chain_match s e t
| chain_match_up s parent e t :
    first_enabled (transitions (heap s)) e = None ->
    state_parent (heap s) = Some parent ->
    chain_match parent e t ->
    chain_match s e t.

(** [chain_no_match s e]: the parent chain from [s] ends, and no table on it
    has an entry that matches [e]. *)
Inductive chain_no_match : state_ref -> event -> Prop :=
| chain_no_match_root s e :
    first_enabled (transitions (heap s)) e = None ->
    state_parent (heap s) = None ->
    chain_no_match s e
| chain_no_match_up s parent e :
    first_enabled (transitions (heap s)) e = None ->
    state_parent (heap s) = Some parent ->
    chain_no_match parent e ->
    chain_no_match s e.

(** The hooks that a forced move to the error state [err] invokes. *)
Definition error_entry_calls (err : option state_ref) (e : event)
  : list call :=
  match err with
  | Some s =>
      match action_entry (heap s) with
      | Some f => [call_entry f (data (heap s)) e]
      | None => []
      end
  | None => []
  end.

(** The classification of a successful transition as the specification
    words it, for the machine [m] and the event [e]: a self-loop is reported
    as such, and a final target is reported as "final state reached", after
    which every event is answered "no change". *)
Definition classification_as_stated (m : state_machine) (e : event) : Prop :=
  forall c t next target,
    state_current m = Some c ->
    chain_match c e t ->
    state_next t = Some next ->
    entry_leaf next target ->
    exists fuel0, forall fuel, (fuel0 <= fuel)%nat ->
      exists o,
        statem_handle_event heap fuel (Some m) (Some e) = Some o /\
        (target = c -> retval o = STATEM_STATE_LOOPSELF) /\
        (target <> c -> is_final heap target = true ->
         retval o = STATEM_FINAL_STATE_RECHED /\
         forall fuel' e',
           statem_handle_event heap fuel' (machine o) (Some e') =
           Some (mk_outcome STATEM_STATE_NOCHANGE (machine o) [])).

(** Every recorded call is a call of an entry action. *)
Definition only_entry_calls (cs : list call) : Prop :=
  Forall (fun k => match k with
                   | call_entry _ _ _ => True
                   | _ => False
                   end) cs.

End Chains.

(** ** Example graphs *)

(** The graph of [src/examples/state_machine_example.c]: a group state with
    the children [idle], [h], [i] and [a], and an error state. *)
Module Keyboard.

Definition EVENT_KEYBOARD : Z := 0.

Definition keyboard_char_compare (ch : opaque) (ev : event) : bool :=
  if negb (type ev =? EVENT_KEYBOARD) then false else ch =? payload ev.

Definition print_msg_enter : fn_ref := 1%nat.
Definition print_msg_exit : fn_ref := 2%nat.
Definition print_msg_recognised_char : fn_ref := 3%nat.
Definition print_msg_unrecognised_char : fn_ref := 4%nat.
Definition print_msg_reset : fn_ref := 5%nat.
Definition print_msg_hi : fn_ref := 6%nat.
Definition print_msg_ha : fn_ref := 7%nat.
Definition print_msg_err : fn_ref := 8%nat.

Definition charsgroup_check : state_ref := 0%nat.
Definition idle : state_ref := 1%nat.
Definition h : state_ref := 2%nat.
Definition i : state_ref := 3%nat.
Definition a : state_ref := 4%nat.
Definition error : state_ref := 5%nat.

Definition on_char (ch : Z) (act : option fn_ref) (next : state_ref)
  : transition :=
  mk_transition EVENT_KEYBOARD ch (Some keyboard_char_compare) act
    (Some next).

Definition catch_all : transition :=
  mk_transition EVENT_KEYBOARD 0 None (Some print_msg_unrecognised_char)
    (Some idle).

Definition heap : graph := fun r =>
  match r with
  | 0%nat =>
      mk_state None (Some idle)
        [on_char 33 (Some print_msg_reset) idle; catch_all]
        1000 (Some print_msg_enter) (Some print_msg_exit)
  | 1%nat =>
      mk_state (Some charsgroup_check) None
        [on_char 104 None h]
        1001 (Some print_msg_enter) (Some print_msg_exit)
  | 2%nat =>
      mk_state (Some charsgroup_check) None
        [on_char 97 None a; on_char 105 None i]
        1002 (Some print_msg_recognised_char) (Some print_msg_exit)
  | 3%nat =>
      mk_state (Some charsgroup_check) None
        [on_char 110 (Some print_msg_hi) idle]
        1003 (Some print_msg_recognised_char) (Some print_msg_exit)
  | 4%nat =>
      mk_state (Some charsgroup_check) None
        [on_char 110 (Some print_msg_ha) idle]
        1004 (Some print_msg_recognised_char) (Some print_msg_exit)
  | _ =>
      mk_state None None
        [on_char 105 None i]
        1005 (Some print_msg_err) None
  end.

Definition key (ch : Z) : event := mk_event EVENT_KEYBOARD ch.

Definition machine_at (s : state_ref) : state_machine :=
  mk_state_machine (Some s) None (Some error).

End Keyboard.

(** A graph with the configurations that the examples do not exercise: a
    transition without a next state, a final state, a final error state, an
    error state that is a group state, and a state without transitions below
    a parent. *)
Module Faulty.

Definition EV_BROKEN : Z := 1.
Definition EV_FINISH : Z := 2.
Definition EV_FAIL : Z := 3.
Definition EV_STAY : Z := 4.

Definition always (b : bool) (c : opaque) (ev : event) : bool := b.

Definition start : state_ref := 0%nat.
Definition done : state_ref := 1%nat.
Definition failed : state_ref := 2%nat.
Definition failed_group : state_ref := 3%nat.
Definition child : state_ref := 4%nat.

Definition heap : graph := fun r =>
  match r with
  | 0%nat =>
      mk_state None None
        [mk_transition EV_BROKEN 0 None (Some 20%nat) None;
         mk_transition EV_FINISH 0 None (Some 21%nat) (Some done);
         mk_transition EV_FAIL 0 None (Some 22%nat) (Some failed);
         mk_transition EV_STAY 0 None (Some 23%nat) (Some start)]
        500 (Some 10%nat) (Some 11%nat)
  | 1%nat => mk_state None None [] 501 (Some 12%nat) (Some 13%nat)
  | 2%nat => mk_state None None [] 502 (Some 14%nat) None
  | 3%nat => mk_state None (Some done) [] 503 (Some 15%nat) None
  | _ => mk_state (Some start) None [] 504 (Some 16%nat) (Some 17%nat)
  end.

Definition machine_at (s : state_ref) (err : option state_ref)
  : state_machine :=
  mk_state_machine (Some s) None err.

(** A table with an unconditional entry ahead of guarded entries for the
    same event type. *)
Definition catch_all_first (b : bool) : list transition :=
  [mk_transition EV_STAY 0 None None (Some start);
   mk_transition EV_STAY 0 (Some (always b)) None (Some done)].

End Faulty.

(** ** The callers' event loop *)

Section EventLoop.

Variable heap : graph.

(** The loop of [state_process] in both examples, after the call of
    [statem_init]: every received event is passed to [statem_handle_event]
    on the same machine object.  [evs] are the events received so far, in
    order; the result is the machine afterwards, the values returned and the
    hooks invoked, both in order. *)
Fixpoint handle_events (fuel : nat) (m : state_machine) (evs : list event)
  : option (state_machine * list Z * list call) :=
  match evs with
  | [] => Some (m, [], [])
  | e :: rest =>
      match statem_handle_event heap fuel (Some m) (Some e) with
      | Some o =>
          match machine o with
          | Some m' =>
              match handle_events fuel m' rest with
              | Some (mf, rs, cs) => Some (mf, retval o :: rs, calls o ++ cs)
              | None => None
              end
          | None => None
          end
      | None => None
      end
  end.

(** [statem_init( &m, init, err )] on a machine object with the contents
    [garbage], followed by the loop. *)
Definition state_process (fuel : nat) (garbage : state_machine)
    (init err : option state_ref) (evs : list event)
  : option (state_machine * list Z * list call) :=
  match machine (statem_init (Some garbage) init err) with
  | Some m => handle_events fuel m evs
  | None => None
  end.

(** The three shapes of a finished dispatch for a machine [m] with the
    current state [c]. *)
Inductive dispatched (m : state_machine) (e : event) (c : state_ref)
  : outcome -> Prop :=
| dispatched_no_match :
    chain_no_match heap c e ->
    dispatched m e c (mk_outcome STATEM_STATE_NOCHANGE (Some m) [])
| dispatched_null_next t :
    chain_match heap c e t ->
    state_next t = None ->
    dispatched m e c
      (mk_outcome STATEM_ERR_STATE_RECHED
         (Some {| state_current := state_error m;
                  state_previous := Some c;
                  state_error := state_error m |})
         (error_entry_calls heap (state_error m) e))
| dispatched_transition t next target :
    chain_match heap c e t ->
    state_next t = Some next ->
    entry_leaf heap next target ->
    dispatched m e c (take_transition heap m e c t target).

(** No table on the parent chain from [s] matches [e], and the chain never
    ends. *)
Definition parent_chain_endless (e : event) (s : state_ref) : Prop :=
  exists P : state_ref -> Prop,
    P s /\
    forall x, P x ->
      first_enabled (transitions (heap x)) e = None /\
      exists p, state_parent (heap x) = Some p /\ P p.

(** The chain of [state_entry] pointers from [s] never ends. *)
Definition entry_chain_endless (s : state_ref) : Prop :=
  exists P : state_ref -> Prop,
    P s /\
    forall x, P x -> exists child, state_entry (heap x) = Some child /\ P child.

End EventLoop.

(** The graph of [src/examples/post_state.c]; the object [state_error] of
    the example is [error_state] here. *)
Module Post.

Definition EVENT_POST_NULL : Z := 0.
Definition EVENT_POST_START : Z := 1.
Definition EVENT_POST_BREAKON : Z := 2.
Definition EVENT_POST_BREAKOFF : Z := 3.
Definition EVENT_POST_ANSWER : Z := 4.
Definition EVENT_POST_NUMS : Z := 5.

(** The conversion [(int)p] of a pointer value: the low 32 bits, signed. *)
Definition int_of_ptr (p : opaque) : Z :=
  (p + 2147483648) mod 4294967296 - 2147483648.

Definition guard_post_pass (condition : opaque) (ev : event) : bool :=
  if negb (type ev =? EVENT_POST_ANSWER) then false
  else int_of_ptr (payload ev) =? int_of_ptr condition.

Definition guard_post_fail (condition : opaque) (ev : event) : bool :=
  if negb (type ev =? EVENT_POST_ANSWER) then false
  else int_of_ptr (payload ev) =? int_of_ptr condition.

Definition print_msg_err : fn_ref := 1%nat.
Definition print_msg_enter : fn_ref := 2%nat.
Definition print_msg_exit : fn_ref := 3%nat.
Definition state_post_enter : fn_ref := 4%nat.
Definition action_post_break : fn_ref := 5%nat.
Definition action_post_pass : fn_ref := 6%nat.
Definition action_post_fail : fn_ref := 7%nat.

Definition state_root : state_ref := 0%nat.
Definition state_post : state_ref := 1%nat.
Definition state_postpass : state_ref := 2%nat.
Definition state_postfail : state_ref := 3%nat.
Definition state_postbreak : state_ref := 4%nat.
Definition error_state : state_ref := 5%nat.

Definition heap : graph := fun r =>
  match r with
  | 0%nat =>
      mk_state None None
        [mk_transition EVENT_POST_START 0 None None (Some state_post)]
        2000 (Some print_msg_enter) (Some print_msg_exit)
  | 1%nat =>
      mk_state None None
        [mk_transition EVENT_POST_BREAKON 0 None (Some action_post_break)
           (Some state_postbreak);
         mk_transition EVENT_POST_ANSWER 1 (Some guard_post_fail)
           (Some action_post_fail) (Some state_postfail);
         mk_transition EVENT_POST_ANSWER 2 (Some guard_post_pass)
           (Some action_post_pass) (Some state_postpass)]
        2001 (Some state_post_enter) (Some print_msg_exit)
  | 2%nat =>
      mk_state None None [] 2002 (Some print_msg_enter) (Some print_msg_exit)
  | 3%nat =>
      mk_state None None [] 2003 (Some print_msg_enter) (Some print_msg_exit)
  | 4%nat =>
      mk_state None None
        [mk_transition EVENT_POST_BREAKOFF 0 None None (Some state_post)]
        2004 (Some print_msg_enter) (Some print_msg_exit)
  | _ => mk_state None None [] 2005 (Some print_msg_err) None
  end.

(** The states of the diagram. *)
Definition in_diagram (m : state_machine) : Prop :=
  (state_current m = Some state_root \/
   state_current m = Some state_post \/
   state_current m = Some state_postpass \/
   state_current m = Some state_postfail \/
   state_current m = Some state_postbreak) /\
  state_error m = Some error_state.

End Post.

(** Graphs with a cycle: [0] is its own parent and has an empty table;
    [1] has a transition to [2], which is its own entry state. *)
Module Cyclic.

Definition heap : graph := fun r =>
  match r with
  | 0%nat => mk_state (Some 0%nat) None [] 0 None None
  | 1%nat =>
      mk_state None None [mk_transition 0 0 None None (Some 2%nat)]
        0 None None
  | _ => mk_state None (Some 2%nat) [] 0 None None
  end.

End Cyclic.

(** Ranks for the keyboard example: parent pointers lead from rank 1 to
    rank 0, and so do entry pointers. *)
Definition keyboard_parent_rank (s : state_ref) : nat :=
  match s with
  | 1%nat | 2%nat | 3%nat | 4%nat => 1%nat
  | _ => 0%nat
  end.

Definition keyboard_entry_rank (s : state_ref) : nat :=
  match s with
  | 0%nat => 1%nat
  | _ => 0%nat
  end.

(** The children of the group state of the keyboard example. *)
Definition keyboard_in_group (m : state_machine) : Prop :=
  (state_current m = Some Keyboard.idle \/
   state_current m = Some Keyboard.h \/
   state_current m = Some Keyboard.i \/
   state_current m = Some Keyboard.a) /\
  state_error m = Some Keyboard.error.

(** The diagrams of the two examples as automata: the state after one
    event, and the value that [statem_handle_event] returns for it. *)
Fixpoint automaton_run {E : Type} (step : state_ref -> E -> state_ref)
    (ret : state_ref -> E -> Z) (s : state_ref) (xs : list E)
  : state_ref * list Z :=
  match xs with
  | [] => (s, [])
  | x :: rest =>
      let '(sf, rs) := automaton_run step ret (step s x) rest in
      (sf, ret s x :: rs)
  end.

(** Keyboard example: [idle] goes to [h] on 'h'; [h] goes to [a] on 'a' and
    to [i] on 'i'; everything else leads to [idle]. *)
Definition keyboard_step (s : state_ref) (ch : Z) : state_ref :=
  match s with
  | 1%nat => if ch =? 104 then Keyboard.h else Keyboard.idle
  | 2%nat =>
      if ch =? 97 then Keyboard.a
      else if ch =? 105 then Keyboard.i
      else Keyboard.idle
  | _ => Keyboard.idle
  end.

Definition keyboard_ret (s : state_ref) (ch : Z) : Z :=
  if Nat.eqb (keyboard_step s ch) s then STATEM_STATE_LOOPSELF
  else STATEM_STATE_CHANGED.

(** Post example: [root] goes to [post] on START; [post] goes to
    [postbreak] on BREAKON, to [postfail] on ANSWER 1 and to [postpass] on
    ANSWER 2; [postbreak] goes back to [post] on BREAKOFF; every other event
    is ignored. *)
Definition post_step (s : state_ref) (ev : event) : state_ref :=
  match s with
  | 0%nat =>
      if type ev =? Post.EVENT_POST_START then Post.state_post else s
  | 1%nat =>
      if type ev =? Post.EVENT_POST_BREAKON then Post.state_postbreak
      else if (type ev =? Post.EVENT_POST_ANSWER) &&
              (Post.int_of_ptr (payload ev) =? 1)
      then Post.state_postfail
      else if (type ev =? Post.EVENT_POST_ANSWER) &&
              (Post.int_of_ptr (payload ev) =? 2)
      then Post.state_postpass
      else s
  | 4%nat =>
      if type ev =? Post.EVENT_POST_BREAKOFF then Post.state_post else s
  | _ => s
  end.

Definition post_ret (s : state_ref) (ev : event) : Z :=
  let s' := post_step s ev in
  if Nat.eqb s' s then STATEM_STATE_NOCHANGE
  else if Nat.eqb s' Post.state_postpass || Nat.eqb s' Post.state_postfail
  then STATEM_FINAL_STATE_RECHED
  else STATEM_STATE_CHANGED.

(** ** Transition lookup *)

Lemma scan_transitions_first_enabled (ts : list transition) (e : event) :
  scan_transitions ts e = first_enabled ts e.
Proof.
  unfold first_enabled.
  induction ts as [|t rest IH]; simpl; [reflexivity|].
  unfold enabled.
  destruct (event_type t =? type e); simpl; [|exact IH].
  destruct (guard t) as [g|]; [|reflexivity].
  destruct (g (condition t) e); [reflexivity|exact IH].
Qed.

Lemma get_transition_first_enabled (heap : graph) (s : state_ref)
    (e : event) :
  get_transition heap (Some s) e = first_enabled (transitions (heap s)) e.
Proof. apply scan_transitions_first_enabled. Qed.

Lemma first_enabled_app (pre post : list transition) (e : event) :
  first_enabled (pre ++ post) e =
  match first_enabled pre e with
  | Some t => Some t
  | None => first_enabled post e
  end.
Proof.
  unfold first_enabled.
  induction pre as [|t pre IH]; simpl; [reflexivity|].
  destruct (enabled e t); [reflexivity|exact IH].
Qed.

Lemma first_enabled_sound (ts : list transition) (e : event)
    (t : transition) :
  first_enabled ts e = Some t ->
  exists pre post,
    ts = pre ++ t :: post /\
    enabled e t = true /\
    Forall (fun u => enabled e u = false) pre.
Proof.
  unfold first_enabled.
  induction ts as [|u rest IH]; simpl; [discriminate|].
  destruct (enabled e u) eqn:Hu.
  - intros [= <-]. exists [], rest. repeat split; auto.
  - intros Hrest. destruct (IH Hrest) as (pre & post & -> & Ht & Hpre).
    exists (u :: pre), post. repeat split; auto.
Qed.

Lemma first_enabled_none (ts : list transition) (e : event) :
  first_enabled ts e = None <->
  Forall (fun u => enabled e u = false) ts.
Proof.
  unfold first_enabled. split.
  - induction ts as [|u rest IH]; simpl; [constructor|].
    destruct (enabled e u) eqn:Hu; [discriminate|].
    intros Hrest. constructor; auto.
  - induction 1 as [|u rest Hu _ IH]; simpl; [reflexivity|].
    rewrite Hu. exact IH.
Qed.

(** C6. [get_transition] returns the first entry of the state's table, in
    declaration order, whose [event_type] is the event's type and whose guard
    is absent or holds of (condition, event); it returns null for a null
    state or when no entry matches.  Consequently, when the table holds an
    unconditional entry [u] for the event's type, no entry declared after [u]
    is ever selected, whatever the guards of those entries answer: the lookup
    yields the first matching entry declared before [u] if there is one, and
    [u] otherwise; with [u] at the head of the table and a guarded entry for
    the same type behind it, [u] is selected. *)
Theorem get_transition_first_match (heap : graph) (e : event) :
  get_transition heap None e = None /\
  (forall s,
     get_transition heap (Some s) e =
     first_enabled (transitions (heap s)) e) /\
  (forall s t,
     get_transition heap (Some s) e = Some t <->
     exists pre post,
       transitions (heap s) = pre ++ t :: post /\
       event_type t = type e /\
       (guard t = None \/
        exists g, guard t = Some g /\ g (condition t) e = true) /\
       Forall (fun u => enabled e u = false) pre) /\
  (forall s pre u post,
     transitions (heap s) = pre ++ u :: post ->
     unconditional u ->
     event_type u = type e ->
     get_transition heap (Some s) e =
     match first_enabled pre e with
     | Some t => Some t
     | None => Some u
     end) /\
  (forall s u guarded post,
     transitions (heap s) = u :: guarded :: post ->
     unconditional u ->
     event_type u = type e ->
     event_type guarded = type e ->
     get_transition heap (Some s) e = Some u).
Proof.
  assert (Hunc : forall u, unconditional u -> event_type u = type e ->
                           enabled e u = true).
  { intros u Hu Hty. unfold enabled. rewrite Hu, Hty, Z.eqb_refl.
    reflexivity. }
  split; [reflexivity|].
  split; [intro s; apply get_transition_first_enabled|].
  split; [|split].
  - intros s t. rewrite get_transition_first_enabled. split.
    + intros Hfind.
      destruct (first_enabled_sound _ _ _ Hfind) as (pre & post & Hts & Hen & Hpre).
      exists pre, post. split; [exact Hts|].
      unfold enabled in Hen. apply andb_true_iff in Hen as [Hty Hg].
      apply Z.eqb_eq in Hty. split; [exact Hty|]. split; [|exact Hpre].
      destruct (guard t) as [g|]; [right; exists g; auto|left; reflexivity].
    + intros (pre & post & Hts & Hty & Hg & Hpre).
      rewrite Hts, first_enabled_app.
      apply first_enabled_none in Hpre. rewrite Hpre.
      unfold first_enabled. simpl.
      assert (Hen : enabled e t = true).
      { unfold enabled. rewrite Hty, Z.eqb_refl. simpl.
        destruct Hg as [-> | (g & -> & Hg)]; auto. }
      rewrite Hen. reflexivity.
  - intros s pre u post Hts Hu Hty.
    rewrite get_transition_first_enabled, Hts, first_enabled_app.
    destruct (first_enabled pre e); [reflexivity|].
    unfold first_enabled. simpl. rewrite (Hunc u Hu Hty). reflexivity.
  - intros s u guarded post Hts Hu Hty _.
    rewrite get_transition_first_enabled, Hts.
    unfold first_enabled. simpl. rewrite (Hunc u Hu Hty). reflexivity.
Qed.

Lemma get_transition_first_match_witness :
  get_transition
    (fun _ => mk_state None None (Faulty.catch_all_first true) 0 None None)
    (Some 0%nat) (mk_event Faulty.EV_STAY 7) =
  Some (mk_transition Faulty.EV_STAY 0 None None (Some Faulty.start)) /\
  get_transition
    (fun _ => mk_state None None (Faulty.catch_all_first false) 0 None None)
    (Some 0%nat) (mk_event Faulty.EV_STAY 7) =
  Some (mk_transition Faulty.EV_STAY 0 None None (Some Faulty.start)).
Proof.
  split.
  - eapply (proj2 (proj2 (proj2 (proj2
             (get_transition_first_match
                (fun _ => mk_state None None (Faulty.catch_all_first true)
                                   0 None None)
                (mk_event Faulty.EV_STAY 7)))))); reflexivity.
  - eapply (proj2 (proj2 (proj2 (proj2
             (get_transition_first_match
                (fun _ => mk_state None None (Faulty.catch_all_first false)
                                   0 None None)
                (mk_event Faulty.EV_STAY 7)))))); reflexivity.
Defined.

(** ** Entry-chain descent *)

Section Descent.

Variable heap : graph.

Lemma descend_leaf (fuel : nat) (s leaf : state_ref) :
  descend heap fuel s = Some leaf -> state_entry (heap leaf) = None.
Proof.
  revert s. induction fuel as [|k IH]; intros s; simpl;
    destruct (state_entry (heap s)) eqn:Hs; try discriminate.
  - intros [= <-]. exact Hs.
  - apply IH.
  - intros [= <-]. exact Hs.
Qed.

Lemma descend_at_leaf (fuel : nat) (leaf : state_ref) :
  state_entry (heap leaf) = None -> descend heap fuel leaf = Some leaf.
Proof. intros H. destruct fuel; simpl; rewrite H; reflexivity. Qed.

Lemma descend_mono (fuel fuel' : nat) (s leaf : state_ref) :
  descend heap fuel s = Some leaf ->
  (fuel <= fuel')%nat ->
  descend heap fuel' s = Some leaf.
Proof.
  revert fuel' s. induction fuel as [|k IH]; intros fuel' s; simpl;
    destruct (state_entry (heap s)) eqn:Hs; try discriminate.
  - intros [= <-] _. apply descend_at_leaf. exact Hs.
  - intros Hd Hle. destruct fuel' as [|k']; [lia|].
    simpl. rewrite Hs. apply IH; [exact Hd|lia].
  - intros [= <-] _. apply descend_at_leaf. exact Hs.
Qed.

Lemma descend_entry_leaf (fuel : nat) (s leaf : state_ref) :
  descend heap fuel s = Some leaf -> entry_leaf heap s leaf.
Proof.
  revert s. induction fuel as [|k IH]; intros s; simpl;
    destruct (state_entry (heap s)) eqn:Hs; try discriminate.
  - intros [= <-]. constructor. exact Hs.
  - intros Hd. econstructor; eauto.
  - intros [= <-]. constructor. exact Hs.
Qed.

Lemma entry_leaf_descend (s leaf : state_ref) :
  entry_leaf heap s leaf ->
  exists fuel0, forall fuel, (fuel0 <= fuel)%nat ->
    descend heap fuel s = Some leaf.
Proof.
  induction 1 as [s Hs | s child leaf Hs _ [f0 IH]].
  - exists 0%nat. intros fuel _. apply descend_at_leaf. exact Hs.
  - exists (S f0). intros fuel Hle.
    destruct fuel as [|k]; [lia|]. simpl. rewrite Hs. apply IH. lia.
Qed.

Lemma entry_leaf_functional (s l1 l2 : state_ref) :
  entry_leaf heap s l1 -> entry_leaf heap s l2 -> l1 = l2.
Proof.
  induction 1 as [s Hs | s child leaf Hs _ IH]; inversion 1; subst;
    try congruence.
  apply IH. congruence.
Qed.

Lemma entry_chain_finite_leaf (s : state_ref) :
  entry_chain_finite heap s -> exists leaf, entry_leaf heap s leaf.
Proof.
  induction 1 as [s Hs | s child Hs _ [leaf IH]].
  - exists s. constructor. exact Hs.
  - exists leaf. econstructor; eauto.
Qed.

(** C7. For a state whose chain of [state_entry] pointers is finite, the
    descent loop finishes (with enough fuel, and then with any larger
    amount) on one leaf; that leaf has a null [state_entry]; every finished
    run of the descent from the state returns this leaf; and the descent
    started from the leaf returns the leaf again, without consuming fuel. *)
Theorem descend_idempotent (s : state_ref) :
  entry_chain_finite heap s ->
  exists leaf fuel0,
    (forall fuel, (fuel0 <= fuel)%nat -> descend heap fuel s = Some leaf) /\
    state_entry (heap leaf) = None /\
    (forall fuel l, descend heap fuel s = Some l -> l = leaf) /\
    (forall fuel, descend heap fuel leaf = Some leaf) /\
    (forall fuel fuel' l,
       descend heap fuel s = Some l ->
       match descend heap fuel s with
       | Some l1 => descend heap fuel' l1
       | None => None
       end = Some l).
Proof.
  intros Hfin.
  destruct (entry_chain_finite_leaf s Hfin) as [leaf Hleaf].
  destruct (entry_leaf_descend s leaf Hleaf) as [fuel0 Hrun].
  assert (Hnull : state_entry (heap leaf) = None).
  { apply (descend_leaf fuel0 s). apply Hrun. lia. }
  exists leaf, fuel0. repeat split.
  - exact Hrun.
  - exact Hnull.
  - intros fuel l Hd.
    apply (entry_leaf_functional s); [|exact Hleaf].
    apply (descend_entry_leaf fuel). exact Hd.
  - intros fuel. apply descend_at_leaf. exact Hnull.
  - intros fuel fuel' l Hd. rewrite Hd.
    apply descend_at_leaf. apply (descend_leaf fuel s). exact Hd.
Qed.

End Descent.

Lemma descend_idempotent_witness :
  exists leaf fuel0,
    (forall fuel, (fuel0 <= fuel)%nat ->
       descend Keyboard.heap fuel Keyboard.charsgroup_check = Some leaf) /\
    state_entry (Keyboard.heap leaf) = None /\
    (forall fuel l,
       descend Keyboard.heap fuel Keyboard.charsgroup_check = Some l ->
       l = leaf) /\
    (forall fuel, descend Keyboard.heap fuel leaf = Some leaf) /\
    (forall fuel fuel' l,
       descend Keyboard.heap fuel Keyboard.charsgroup_check = Some l ->
       match descend Keyboard.heap fuel Keyboard.charsgroup_check with
       | Some l1 => descend Keyboard.heap fuel' l1
       | None => None
       end = Some l).
Proof.
  apply (descend_idempotent Keyboard.heap Keyboard.charsgroup_check).
  apply (entry_chain_step Keyboard.heap _ Keyboard.idle); [reflexivity|].
  apply entry_chain_end. reflexivity.
Defined.

(** ** The dispatch loop *)

Section Dispatch.

Variable heap : graph.

Lemma chain_match_not_final (c : state_ref) (e : event) (t : transition) :
  chain_match heap c e t -> is_final heap c = false.
Proof.
  unfold is_final, transition_nums.
  destruct 1 as [s e t Hfind | s parent e t _ Hpar _].
  - destruct (transitions (heap s)); [discriminate|reflexivity].
  - rewrite Hpar. apply andb_false_r.
Qed.

Lemma dispatch_match (m : state_machine) (e : event) (cur s : state_ref)
    (t : transition) (next target : state_ref) :
  chain_match heap s e t ->
  state_next t = Some next ->
  entry_leaf heap next target ->
  exists fuel0, forall fuel, (fuel0 <= fuel)%nat ->
    dispatch heap fuel m e cur s = Some (take_transition heap m e cur t target).
Proof.
  intros Hmatch Hnext Hleaf.
  destruct (entry_leaf_descend heap next target Hleaf) as [fd Hd].
  induction Hmatch as [s e t Hfind | s parent e t Hfind Hpar _ IH].
  - exists (S fd). intros fuel Hle. destruct fuel as [|k]; [lia|].
    simpl. rewrite scan_transitions_first_enabled, Hfind, Hnext, Hd by lia.
    reflexivity.
  - destruct (IH Hnext) as [f0 Hrun].
    exists (S f0). intros fuel Hle. destruct fuel as [|k]; [lia|].
    simpl. rewrite scan_transitions_first_enabled, Hfind, Hpar.
    apply Hrun. lia.
Qed.

Lemma dispatch_match_null (m : state_machine) (e : event) (cur s : state_ref)
    (t : transition) :
  chain_match heap s e t ->
  state_next t = None ->
  exists fuel0, forall fuel, (fuel0 <= fuel)%nat ->
    dispatch heap fuel m e cur s =
    Some (mk_outcome STATEM_ERR_STATE_RECHED
            (Some {| state_current := state_error m;
                     state_previous := state_current m;
                     state_error := state_error m |})
            (error_entry_calls heap (state_error m) e)).
Proof.
  intros Hmatch Hnext.
  induction Hmatch as [s e t Hfind | s parent e t Hfind Hpar _ IH].
  - exists 1%nat. intros fuel Hle. destruct fuel as [|k]; [lia|].
    simpl. rewrite scan_transitions_first_enabled, Hfind, Hnext.
    unfold error_entry_calls.
    destruct (state_error m) as [err|]; [|reflexivity].
    destruct (action_entry (heap err)); reflexivity.
  - destruct (IH Hnext) as [f0 Hrun].
    exists (S f0). intros fuel Hle. destruct fuel as [|k]; [lia|].
    simpl. rewrite scan_transitions_first_enabled, Hfind, Hpar.
    apply Hrun. lia.
Qed.

Lemma dispatch_no_match (m : state_machine) (e : event) (cur s : state_ref) :
  chain_no_match heap s e ->
  exists fuel0, forall fuel, (fuel0 <= fuel)%nat ->
    dispatch heap fuel m e cur s =
    Some (mk_outcome STATEM_STATE_NOCHANGE (Some m) []).
Proof.
  induction 1 as [s e Hfind Hpar | s parent e Hfind Hpar _ [f0 Hrun]].
  - exists 1%nat. intros fuel Hle. destruct fuel as [|k]; [lia|].
    simpl. rewrite scan_transitions_first_enabled, Hfind, Hpar. reflexivity.
  - exists (S f0). intros fuel Hle. destruct fuel as [|k]; [lia|].
    simpl. rewrite scan_transitions_first_enabled, Hfind, Hpar.
    apply Hrun. lia.
Qed.

(** More fuel does not change the outcome of a run that has finished. *)
Lemma dispatch_mono (m : state_machine) (e : event) (cur : state_ref)
    (fuel fuel' : nat) (s : state_ref) (o : outcome) :
  dispatch heap fuel m e cur s = Some o ->
  (fuel <= fuel')%nat ->
  dispatch heap fuel' m e cur s = Some o.
Proof.
  revert fuel' s. induction fuel as [|k IH]; intros fuel' s; [discriminate|].
  intros Hrun Hle. destruct fuel' as [|k']; [lia|].
  simpl in *.
  destruct (scan_transitions (transitions (heap s)) e) as [t|].
  - destruct (state_next t) as [next|]; [|exact Hrun].
    destruct (descend heap k next) as [target|] eqn:Hd; [|discriminate].
    rewrite (descend_mono heap k k' next target Hd) by lia. exact Hrun.
  - destruct (state_parent (heap s)) as [parent|]; [|exact Hrun].
    apply IH; [exact Hrun|lia].
Qed.

Lemma handle_event_mono (fsm : option state_machine) (ev : option event)
    (fuel fuel' : nat) (o : outcome) :
  statem_handle_event heap fuel fsm ev = Some o ->
  (fuel <= fuel')%nat ->
  statem_handle_event heap fuel' fsm ev = Some o.
Proof.
  unfold statem_handle_event.
  destruct fsm as [m|]; [|auto]. destruct ev as [e|]; [|auto].
  destruct (state_current m) as [c|]; [|auto].
  destruct (is_final heap c); [auto|]. apply dispatch_mono.
Qed.

Lemma handle_event_dispatch (fuel : nat) (m : state_machine) (e : event)
    (c : state_ref) :
  state_current m = Some c ->
  is_final heap c = false ->
  statem_handle_event heap fuel (Some m) (Some e) = dispatch heap fuel m e c c.
Proof. intros Hc Hf. unfold statem_handle_event. rewrite Hc, Hf. reflexivity. Qed.

Lemma final_state_no_change (fuel : nat) (m : state_machine) (e : event)
    (c : state_ref) :
  state_current m = Some c ->
  is_final heap c = true ->
  statem_handle_event heap fuel (Some m) (Some e) =
  Some (mk_outcome STATEM_STATE_NOCHANGE (Some m) []).
Proof. intros Hc Hf. unfold statem_handle_event. rewrite Hc, Hf. reflexivity. Qed.

Lemma handle_event_match (m : state_machine) (e : event) (c : state_ref)
    (t : transition) (next target : state_ref) :
  state_current m = Some c ->
  chain_match heap c e t ->
  state_next t = Some next ->
  entry_leaf heap next target ->
  exists fuel0, forall fuel, (fuel0 <= fuel)%nat ->
    statem_handle_event heap fuel (Some m) (Some e) =
    Some (take_transition heap m e c t target).
Proof.
  intros Hc Hmatch Hnext Hleaf.
  destruct (dispatch_match m e c c t next target Hmatch Hnext Hleaf)
    as [f0 Hrun].
  exists f0. intros fuel Hle.
  rewrite (handle_event_dispatch fuel m e c Hc
             (chain_match_not_final c e t Hmatch)).
  apply Hrun. exact Hle.
Qed.

End Dispatch.

(** ** Callbacks of a successful transition *)

(** C1. When the event matches a transition [t] on the lookup chain of the
    current state [c] and the entry chain of [t]'s next state ends at
    [target], [statem_handle_event] returns (with enough fuel) and has
    invoked, in this order: the exit action of [c] on ([c]'s data, event),
    if present and only if [target] is not [c]; the action of [t] on ([c]'s
    data, event, [target]'s data), if present, in either case; the entry
    action of [target] on ([target]'s data, event), if present and only if
    [target] is not [c].  On a self-loop the calls are exactly the transition
    action, once, when it is present, and none otherwise. *)
Theorem handle_event_callback_order (heap : graph) (m : state_machine)
    (e : event) (c : state_ref) (t : transition) (next target : state_ref) :
  state_current m = Some c ->
  chain_match heap c e t ->
  state_next t = Some next ->
  entry_leaf heap next target ->
  exists fuel0, forall fuel, (fuel0 <= fuel)%nat ->
    exists o,
      statem_handle_event heap fuel (Some m) (Some e) = Some o /\
      calls o =
        (if Nat.eqb target c then []
         else match action_exti (heap c) with
              | Some f => [call_exit f (data (heap c)) e]
              | None => []
              end) ++
        match action t with
        | Some f => [call_action f (data (heap c)) e (data (heap target))]
        | None => []
        end ++
        (if Nat.eqb target c then []
         else match action_entry (heap target) with
              | Some f => [call_entry f (data (heap target)) e]
              | None => []
              end) /\
      (target = c ->
       calls o =
         match action t with
         | Some f => [call_action f (data (heap c)) e (data (heap c))]
         | None => []
         end).
Proof.
  intros Hc Hmatch Hnext Hleaf.
  destruct (handle_event_match heap m e c t next target Hc Hmatch Hnext Hleaf)
    as [f0 Hrun].
  exists f0. intros fuel Hle.
  exists (take_transition heap m e c t target).
  split; [apply Hrun; exact Hle|].
  split.
  - unfold take_transition, invoke. simpl.
    destruct (Nat.eqb target c); reflexivity.
  - intros ->. unfold take_transition, invoke. simpl.
    rewrite Nat.eqb_refl. simpl. rewrite app_nil_r. reflexivity.
Qed.

Lemma handle_event_callback_order_witness :
  exists fuel0, forall fuel, (fuel0 <= fuel)%nat ->
    exists o,
      statem_handle_event Keyboard.heap fuel
        (Some (Keyboard.machine_at Keyboard.h)) (Some (Keyboard.key 120))
      = Some o /\
      calls o =
        [call_exit Keyboard.print_msg_exit 1002 (Keyboard.key 120)] ++
        [call_action Keyboard.print_msg_unrecognised_char 1002
           (Keyboard.key 120) 1001] ++
        [call_entry Keyboard.print_msg_enter 1001 (Keyboard.key 120)] /\
      (Keyboard.idle = Keyboard.h ->
       calls o =
         [call_action Keyboard.print_msg_unrecognised_char 1002
            (Keyboard.key 120) 1002]).
Proof.
  apply (handle_event_callback_order Keyboard.heap
           (Keyboard.machine_at Keyboard.h) (Keyboard.key 120)
           Keyboard.h Keyboard.catch_all Keyboard.idle Keyboard.idle).
  - reflexivity.
  - apply (chain_match_up Keyboard.heap _ Keyboard.charsgroup_check);
      [reflexivity | reflexivity |].
    apply chain_match_here. reflexivity.
  - reflexivity.
  - apply entry_leaf_here. reflexivity.
Defined.

(** ** Events without a matching transition *)

(** C4. When no table on the parent chain of the current state, walked to
    its end, has an entry that matches the event, [statem_handle_event]
    returns "no change" (with enough fuel), leaves the machine as it was, in
    particular [state_current] and [state_previous], and invokes no action
    hook. *)
Theorem handle_event_no_match (heap : graph) (m : state_machine) (e : event)
    (c : state_ref) :
  state_current m = Some c ->
  chain_no_match heap c e ->
  exists fuel0, forall fuel, (fuel0 <= fuel)%nat ->
    exists o,
      statem_handle_event heap fuel (Some m) (Some e) = Some o /\
      retval o = STATEM_STATE_NOCHANGE /\
      machine o = Some m /\
      statem_state_current (machine o) = state_current m /\
      statem_state_previous (machine o) = state_previous m /\
      calls o = [].
Proof.
  intros Hc Hno.
  destruct (dispatch_no_match heap m e c c Hno) as [f0 Hrun].
  exists f0. intros fuel Hle.
  exists (mk_outcome STATEM_STATE_NOCHANGE (Some m) []).
  split; [|repeat split].
  destruct (is_final heap c) eqn:Hf.
  - apply (final_state_no_change heap fuel m e c Hc Hf).
  - rewrite (handle_event_dispatch heap fuel m e c Hc Hf).
    apply Hrun. exact Hle.
Qed.

Lemma handle_event_no_match_witness :
  exists fuel0, forall fuel, (fuel0 <= fuel)%nat ->
    exists o,
      statem_handle_event Keyboard.heap fuel
        (Some (Keyboard.machine_at Keyboard.idle)) (Some (mk_event 9 33))
      = Some o /\
      retval o = STATEM_STATE_NOCHANGE /\
      machine o = Some (Keyboard.machine_at Keyboard.idle) /\
      statem_state_current (machine o) = Some Keyboard.idle /\
      statem_state_previous (machine o) = None /\
      calls o = [].
Proof.
  apply (handle_event_no_match Keyboard.heap
           (Keyboard.machine_at Keyboard.idle) (mk_event 9 33) Keyboard.idle).
  - reflexivity.
  - apply (chain_no_match_up Keyboard.heap _ Keyboard.charsgroup_check);
      [reflexivity | reflexivity |].
    apply chain_no_match_root; reflexivity.
Defined.

(** ** Forced moves to the error state *)

(** C5. When the event matches, on the lookup chain of the current state
    [c], a transition whose [state_next] is null, [statem_handle_event]
    returns "error state reached" (with enough fuel), the machine's current
    state is the configured error state and its previous state is [c], and
    the only hook invoked is the entry action of the error state, once, on
    (the error state's data, event), when the error state has one. *)
Theorem handle_event_null_next (heap : graph) (m : state_machine) (e : event)
    (c : state_ref) (t : transition) :
  state_current m = Some c ->
  chain_match heap c e t ->
  state_next t = None ->
  exists fuel0, forall fuel, (fuel0 <= fuel)%nat ->
    exists o,
      statem_handle_event heap fuel (Some m) (Some e) = Some o /\
      retval o = STATEM_ERR_STATE_RECHED /\
      machine o = Some {| state_current := state_error m;
                          state_previous := Some c;
                          state_error := state_error m |} /\
      calls o =
        match state_error m with
        | Some err =>
            match action_entry (heap err) with
            | Some f => [call_entry f (data (heap err)) e]
            | None => []
            end
        | None => []
        end.
Proof.
  intros Hc Hmatch Hnext.
  destruct (dispatch_match_null heap m e c c t Hmatch Hnext) as [f0 Hrun].
  exists f0. intros fuel Hle.
  eexists. split.
  - rewrite (handle_event_dispatch heap fuel m e c Hc
               (chain_match_not_final heap c e t Hmatch)).
    apply Hrun. exact Hle.
  - simpl. rewrite Hc. repeat split.
Qed.

Lemma handle_event_null_next_witness :
  exists fuel0, forall fuel, (fuel0 <= fuel)%nat ->
    exists o,
      statem_handle_event Faulty.heap fuel
        (Some (Faulty.machine_at Faulty.start (Some Faulty.failed)))
        (Some (mk_event Faulty.EV_BROKEN 0))
      = Some o /\
      retval o = STATEM_ERR_STATE_RECHED /\
      machine o = Some {| state_current := Some Faulty.failed;
                          state_previous := Some Faulty.start;
                          state_error := Some Faulty.failed |} /\
      calls o = [call_entry 14%nat 502 (mk_event Faulty.EV_BROKEN 0)].
Proof.
  apply (handle_event_null_next Faulty.heap
           (Faulty.machine_at Faulty.start (Some Faulty.failed))
           (mk_event Faulty.EV_BROKEN 0) Faulty.start
           (mk_transition Faulty.EV_BROKEN 0 None (Some 20%nat) None)).
  - reflexivity.
  - apply chain_match_here. reflexivity.
  - reflexivity.
Defined.

(** C10. When the engine forces the machine into the error state, because
    the current state is null at dispatch or because the matched transition
    has a null [state_next], [statem_handle_event] returns "error state
    reached"; [state_current] becomes exactly [state_error], whose entry
    chain is not followed, also when [state_error] is null; [state_previous]
    becomes the prior current state; and the only hook that can have been
    invoked is the entry action of the error state: no exit action and no
    transition action is, and nothing is invoked for a null error state. *)
Theorem handle_event_forced_error (heap : graph) (m : state_machine)
    (e : event) :
  state_current m = None \/
  (exists c t,
     state_current m = Some c /\
     chain_match heap c e t /\
     state_next t = None) ->
  exists fuel0, forall fuel, (fuel0 <= fuel)%nat ->
    exists o,
      statem_handle_event heap fuel (Some m) (Some e) = Some o /\
      retval o = STATEM_ERR_STATE_RECHED /\
      machine o = Some {| state_current := state_error m;
                          state_previous := state_current m;
                          state_error := state_error m |} /\
      calls o = error_entry_calls heap (state_error m) e /\
      only_entry_calls (calls o) /\
      (state_error m = None -> calls o = []).
Proof.
  assert (Hshape : only_entry_calls
                     (error_entry_calls heap (state_error m) e) /\
                   (state_error m = None ->
                    error_entry_calls heap (state_error m) e = [])).
  { unfold only_entry_calls, error_entry_calls.
    destruct (state_error m) as [err|]; [|split; [constructor|reflexivity]].
    split; [|discriminate].
    destruct (action_entry (heap err)); repeat constructor. }
  intros [Hnull | (c & t & Hc & Hmatch & Hnext)].
  - exists 0%nat. intros fuel _. eexists. split.
    + unfold statem_handle_event. rewrite Hnull. simpl. reflexivity.
    + simpl. rewrite Hnull. repeat split; apply Hshape.
  - destruct (dispatch_match_null heap m e c c t Hmatch Hnext) as [f0 Hrun].
    exists f0. intros fuel Hle. eexists. split.
    + rewrite (handle_event_dispatch heap fuel m e c Hc
                 (chain_match_not_final heap c e t Hmatch)).
      apply Hrun. exact Hle.
    + simpl. repeat split; apply Hshape.
Qed.

Lemma handle_event_forced_error_witness :
  (exists fuel0, forall fuel, (fuel0 <= fuel)%nat ->
     exists o,
       statem_handle_event Faulty.heap fuel
         (Some (Faulty.machine_at Faulty.start (Some Faulty.failed_group)))
         (Some (mk_event Faulty.EV_BROKEN 0))
       = Some o /\
       retval o = STATEM_ERR_STATE_RECHED /\
       machine o = Some {| state_current := Some Faulty.failed_group;
                           state_previous := Some Faulty.start;
                           state_error := Some Faulty.failed_group |} /\
       calls o = [call_entry 15%nat 503 (mk_event Faulty.EV_BROKEN 0)] /\
       only_entry_calls (calls o) /\
       (Some Faulty.failed_group = None -> calls o = [])) /\
  (exists fuel0, forall fuel, (fuel0 <= fuel)%nat ->
     exists o,
       statem_handle_event Faulty.heap fuel
         (Some (mk_state_machine None (Some Faulty.done) None))
         (Some (mk_event Faulty.EV_BROKEN 0))
       = Some o /\
       retval o = STATEM_ERR_STATE_RECHED /\
       machine o = Some {| state_current := None;
                           state_previous := None;
                           state_error := None |} /\
       calls o = [] /\
       only_entry_calls (calls o) /\
       (@None state_ref = None -> calls o = [])).
Proof.
  split.
  - apply (handle_event_forced_error Faulty.heap
             (Faulty.machine_at Faulty.start (Some Faulty.failed_group))
             (mk_event Faulty.EV_BROKEN 0)).
    right.
    exists Faulty.start,
      (mk_transition Faulty.EV_BROKEN 0 None (Some 20%nat) None).
    split; [reflexivity|]. split; [|reflexivity].
    apply chain_match_here. reflexivity.
  - apply (handle_event_forced_error Faulty.heap
             (mk_state_machine None (Some Faulty.done) None)
             (mk_event Faulty.EV_BROKEN 0)).
    left. reflexivity.
Defined.

(** ** Classification of a successful transition *)

(** C2, as stated, fails: a final target that is the configured error state
    is reported as "error state reached", not as "final state reached". *)
Lemma classification_as_stated_fails :
  ~ classification_as_stated Faulty.heap
      (Faulty.machine_at Faulty.start (Some Faulty.failed))
      (mk_event Faulty.EV_FAIL 0).
Proof.
  intros Hclaim.
  assert (Hmatch : chain_match Faulty.heap Faulty.start
                     (mk_event Faulty.EV_FAIL 0)
                     (mk_transition Faulty.EV_FAIL 0 None (Some 22%nat)
                        (Some Faulty.failed))).
  { apply chain_match_here. reflexivity. }
  assert (Hleaf : entry_leaf Faulty.heap Faulty.failed Faulty.failed).
  { apply entry_leaf_here. reflexivity. }
  destruct (Hclaim Faulty.start _ Faulty.failed Faulty.failed
              eq_refl Hmatch eq_refl Hleaf) as [f0 Hrun].
  destruct (handle_event_match Faulty.heap
              (Faulty.machine_at Faulty.start (Some Faulty.failed))
              _ Faulty.start _ Faulty.failed Faulty.failed
              eq_refl Hmatch eq_refl Hleaf) as [f1 Hcode].
  destruct (Hrun (f0 + f1)%nat) as (o & Ho & _ & Hfinal); [lia|].
  rewrite Hcode in Ho by lia. injection Ho as <-.
  destruct Hfinal as [Hret _]; [discriminate | reflexivity |].
    discriminate Hret.
Qed.

(** C2, amended. For a successful transition from the current state [c] to
    the resolved target, [statem_handle_event] returns (with enough fuel)
    and classifies in this order: "loop-self" when the target is [c];
    otherwise "error state reached" when the target is the configured error
    state, final or not; otherwise "final state reached" when the target has
    no transitions and no parent; otherwise "state changed".  When the target
    is final, whether it is the error state or not, every later event
    leaves the machine as it is, returns "no change" and invokes no hook, so
    that "final state reached" is returned on the transition that reaches the
    state and not again. *)
Theorem handle_event_classification (heap : graph) (m : state_machine)
    (e : event) (c : state_ref) (t : transition) (next target : state_ref) :
  state_current m = Some c ->
  chain_match heap c e t ->
  state_next t = Some next ->
  entry_leaf heap next target ->
  exists fuel0, forall fuel, (fuel0 <= fuel)%nat ->
    exists o,
      statem_handle_event heap fuel (Some m) (Some e) = Some o /\
      machine o = Some {| state_current := Some target;
                          state_previous := Some c;
                          state_error := state_error m |} /\
      (target = c -> retval o = STATEM_STATE_LOOPSELF) /\
      (target <> c -> state_error m = Some target ->
       retval o = STATEM_ERR_STATE_RECHED) /\
      (target <> c -> state_error m <> Some target ->
       is_final heap target = true ->
       retval o = STATEM_FINAL_STATE_RECHED) /\
      (target <> c -> state_error m <> Some target ->
       is_final heap target = false ->
       retval o = STATEM_STATE_CHANGED) /\
      (is_final heap target = true ->
       forall fuel' e',
         statem_handle_event heap fuel' (machine o) (Some e') =
         Some (mk_outcome STATEM_STATE_NOCHANGE (machine o) [])).
Proof.
  intros Hc Hmatch Hnext Hleaf.
  destruct (handle_event_match heap m e c t next target Hc Hmatch Hnext Hleaf)
    as [f0 Hrun].
  exists f0. intros fuel Hle.
  exists (take_transition heap m e c t target).
  split; [apply Hrun; exact Hle|].
  unfold take_transition. simpl. rewrite Hc. simpl.
  split; [reflexivity|].
  split; [intros ->; rewrite Nat.eqb_refl; reflexivity|].
  split; [|split; [|split]].
  - intros Hne Herr. apply Nat.eqb_neq in Hne. rewrite Hne, Herr. simpl.
    rewrite Nat.eqb_refl. reflexivity.
  - intros Hne Herr Hfin. apply Nat.eqb_neq in Hne. rewrite Hne, Hfin.
    destruct (state_error m) as [err|]; simpl; [|reflexivity].
    destruct (Nat.eqb_spec target err); [congruence|reflexivity].
  - intros Hne Herr Hfin. apply Nat.eqb_neq in Hne. rewrite Hne, Hfin.
    destruct (state_error m) as [err|]; simpl; [|reflexivity].
    destruct (Nat.eqb_spec target err); [congruence|reflexivity].
  - intros Hfin fuel' e'. rewrite Hfin. reflexivity.
Qed.

Lemma handle_event_classification_witness :
  exists fuel0, forall fuel, (fuel0 <= fuel)%nat ->
    exists o,
      statem_handle_event Faulty.heap fuel
        (Some (Faulty.machine_at Faulty.start (Some Faulty.failed)))
        (Some (mk_event Faulty.EV_FINISH 0))
      = Some o /\
      machine o = Some {| state_current := Some Faulty.done;
                          state_previous := Some Faulty.start;
                          state_error := Some Faulty.failed |} /\
      (Faulty.done = Faulty.start -> retval o = STATEM_STATE_LOOPSELF) /\
      (Faulty.done <> Faulty.start ->
       Some Faulty.failed = Some Faulty.done ->
       retval o = STATEM_ERR_STATE_RECHED) /\
      (Faulty.done <> Faulty.start ->
       Some Faulty.failed <> Some Faulty.done ->
       is_final Faulty.heap Faulty.done = true ->
       retval o = STATEM_FINAL_STATE_RECHED) /\
      (Faulty.done <> Faulty.start ->
       Some Faulty.failed <> Some Faulty.done ->
       is_final Faulty.heap Faulty.done = false ->
       retval o = STATEM_STATE_CHANGED) /\
      (is_final Faulty.heap Faulty.done = true ->
       forall fuel' e',
         statem_handle_event Faulty.heap fuel' (machine o) (Some e') =
         Some (mk_outcome STATEM_STATE_NOCHANGE (machine o) [])).
Proof.
  apply (handle_event_classification Faulty.heap
           (Faulty.machine_at Faulty.start (Some Faulty.failed))
           (mk_event Faulty.EV_FINISH 0) Faulty.start
           (mk_transition Faulty.EV_FINISH 0 None (Some 21%nat)
              (Some Faulty.done))
           Faulty.done Faulty.done).
  - reflexivity.
  - apply chain_match_here. reflexivity.
  - reflexivity.
  - apply entry_leaf_here. reflexivity.
Defined.

(** ** Introspection and initialisation *)

(** C3. For a machine with a current state [c], [statem_stopped] returns 1
    exactly when [c] has no transitions and 0 otherwise, whatever [c]'s
    parent pointer is, while the final-state test of [statem_handle_event]
    holds exactly when [c] has no transitions and no parent.  Hence, when
    [c] has no transitions but the parent [p], [statem_stopped] reports the
    machine stopped, and [statem_handle_event] does not answer "no change"
    at once: it hands the event to [p], and when the parent chain from [p]
    has a matching transition with a resolved target, that transition is
    taken and the returned value is not "no change". *)
Theorem stopped_ignores_parent (heap : graph) (m : state_machine)
    (c : state_ref) :
  state_current m = Some c ->
  (statem_stopped heap (Some m) = Returns 1 <->
   transition_nums (heap c) = 0%nat) /\
  (statem_stopped heap (Some m) = Returns 0 <->
   transition_nums (heap c) <> 0%nat) /\
  (is_final heap c = true <->
   transition_nums (heap c) = 0%nat /\ state_parent (heap c) = None) /\
  (forall p e,
     transition_nums (heap c) = 0%nat ->
     state_parent (heap c) = Some p ->
     statem_stopped heap (Some m) = Returns 1 /\
     (forall fuel,
        statem_handle_event heap (S fuel) (Some m) (Some e) =
        dispatch heap fuel m e c p) /\
     (forall t next target,
        chain_match heap p e t ->
        state_next t = Some next ->
        entry_leaf heap next target ->
        exists fuel0, forall fuel, (fuel0 <= fuel)%nat ->
          statem_handle_event heap fuel (Some m) (Some e) =
          Some (take_transition heap m e c t target) /\
          retval (take_transition heap m e c t target)
          <> STATEM_STATE_NOCHANGE)).
Proof.
  intros Hc. unfold statem_stopped, is_final. rewrite Hc.
  split; [|split; [|split]].
  - destruct (Nat.eqb_spec (transition_nums (heap c)) 0); split;
      congruence.
  - destruct (Nat.eqb_spec (transition_nums (heap c)) 0); split;
      congruence.
  - destruct (Nat.eqb_spec (transition_nums (heap c)) 0);
      destruct (state_parent (heap c)); simpl; split;
      try congruence; try tauto; intros []; congruence.
  - intros p e Hnum Hpar.
    assert (Hts : transitions (heap c) = []).
    { unfold transition_nums in Hnum.
      destruct (transitions (heap c)); [reflexivity|discriminate]. }
    assert (Hfin : is_final heap c = false).
    { unfold is_final. rewrite Hpar. apply andb_false_r. }
    split; [rewrite Hnum; reflexivity|]. split.
    + intros fuel.
      rewrite (handle_event_dispatch heap (S fuel) m e c Hc Hfin).
      simpl. rewrite Hts, Hpar. reflexivity.
    + intros t next target Hmatch Hnext Hleaf.
      assert (Hup : chain_match heap c e t).
      { apply (chain_match_up heap c p); auto. rewrite Hts. reflexivity. }
      destruct (handle_event_match heap m e c t next target
                  Hc Hup Hnext Hleaf) as [f0 Hrun].
      exists f0. intros fuel Hle. split; [apply Hrun; exact Hle|].
      unfold take_transition. simpl.
      repeat match goal with
             | |- context [if ?b then _ else _] => destruct b
             end; discriminate.
Qed.

Lemma stopped_ignores_parent_witness :
  statem_stopped Faulty.heap
    (Some (Faulty.machine_at Faulty.child (Some Faulty.failed))) = Returns 1 /\
  is_final Faulty.heap Faulty.child = false /\
  exists fuel0, forall fuel, (fuel0 <= fuel)%nat ->
    statem_handle_event Faulty.heap fuel
      (Some (Faulty.machine_at Faulty.child (Some Faulty.failed)))
      (Some (mk_event Faulty.EV_FINISH 0)) =
    Some (mk_outcome STATEM_FINAL_STATE_RECHED
            (Some {| state_current := Some Faulty.done;
                     state_previous := Some Faulty.child;
                     state_error := Some Faulty.failed |})
            [call_exit 17%nat 504 (mk_event Faulty.EV_FINISH 0);
             call_action 21%nat 504 (mk_event Faulty.EV_FINISH 0) 501;
             call_entry 12%nat 501 (mk_event Faulty.EV_FINISH 0)]).
Proof.
  destruct (stopped_ignores_parent Faulty.heap
              (Faulty.machine_at Faulty.child (Some Faulty.failed))
              Faulty.child eq_refl) as (_ & _ & _ & Hparent).
  destruct (Hparent Faulty.start (mk_event Faulty.EV_FINISH 0)
              eq_refl eq_refl) as (Hstopped & _ & Hescalate).
  split; [exact Hstopped|]. split; [reflexivity|].
  destruct (Hescalate
              (mk_transition Faulty.EV_FINISH 0 None (Some 21%nat)
                 (Some Faulty.done))
              Faulty.done Faulty.done) as [f0 Hrun].
  - apply chain_match_here. reflexivity.
  - reflexivity.
  - apply entry_leaf_here. reflexivity.
  - exists f0. intros fuel Hle. apply (Hrun fuel Hle).
Defined.

(** C8. [statem_init] returns -1 and writes nothing when the machine
    pointer is null.  For a machine and any initial and error state (null
    or not, group state or not) it returns 0, sets [state_current] to the
    initial state as given, [state_previous] to null and [state_error] to the
    error state, and invokes no hook; it reads nothing of the graph.  Calling
    it again on the result with the same arguments yields the same result. *)
Theorem statem_init_spec (state_init state_err : option state_ref) :
  statem_init None state_init state_err = mk_outcome (-1) None [] /\
  (forall m,
     statem_init (Some m) state_init state_err =
     mk_outcome 0
       (Some {| state_current := state_init;
                state_previous := None;
                state_error := state_err |})
       []) /\
  (forall fsm, calls (statem_init fsm state_init state_err) = []) /\
  (forall m,
     statem_state_current
       (machine (statem_init (Some m) state_init state_err)) = state_init /\
     statem_state_previous
       (machine (statem_init (Some m) state_init state_err)) = None) /\
  (forall fsm,
     statem_init (machine (statem_init fsm state_init state_err))
       state_init state_err =
     statem_init fsm state_init state_err).
Proof.
  repeat split; try (intros [m|]; reflexivity).
Qed.

(** C9. [statem_stopped] checks the machine pointer only: for a null
    machine it returns -1 (neither 0 nor 1); for a machine whose
    [state_current] is null it reads [transition_nums] through the null
    pointer; and for a machine it returns a value exactly when
    [state_current] is not null, that value being 0 or 1. *)
Theorem statem_stopped_unchecked_current (heap : graph) :
  statem_stopped heap None = Returns (-1) /\
  (forall prev err,
     statem_stopped heap (Some (mk_state_machine None prev err)) =
     NullDereference) /\
  (forall m,
     statem_stopped heap (Some m) = NullDereference <->
     state_current m = None) /\
  (forall m,
     (exists v, statem_stopped heap (Some m) = Returns v /\
                (v = 0 \/ v = 1)) <->
     state_current m <> None).
Proof.
  split; [reflexivity|]. split; [reflexivity|]. split.
  - intros m. unfold statem_stopped.
    destruct (state_current m); split; congruence.
  - intros m. unfold statem_stopped.
    destruct (state_current m) as [s|]; split; try congruence.
    + intros _. eexists. split; [reflexivity|].
      destruct (Nat.eqb _ _); auto.
    + intros (v & Hv & _). discriminate.
Qed.

(** ** Finished runs of the dispatch *)

Section Finished.

Variable heap : graph.

Lemma final_chain_no_match (c : state_ref) (e : event) :
  is_final heap c = true -> chain_no_match heap c e.
Proof.
  unfold is_final, transition_nums. intros Hf.
  apply andb_true_iff in Hf as [Hlen Hpar].
  apply chain_no_match_root.
  - destruct (transitions (heap c)); [reflexivity|discriminate].
  - destruct (state_parent (heap c)); [discriminate|reflexivity].
Qed.

Lemma dispatch_inversion (fuel : nat) (m : state_machine) (e : event)
    (cur s : state_ref) (o : outcome) :
  dispatch heap fuel m e cur s = Some o ->
  (chain_no_match heap s e /\
   o = mk_outcome STATEM_STATE_NOCHANGE (Some m) []) \/
  (exists t,
     chain_match heap s e t /\ state_next t = None /\
     o = mk_outcome STATEM_ERR_STATE_RECHED
           (Some {| state_current := state_error m;
                    state_previous := state_current m;
                    state_error := state_error m |})
           (error_entry_calls heap (state_error m) e)) \/
  (exists t next target,
     chain_match heap s e t /\ state_next t = Some next /\
     entry_leaf heap next target /\
     o = take_transition heap m e cur t target).
Proof.
  revert s. induction fuel as [|k IH]; intros s; [discriminate|].
  simpl. rewrite scan_transitions_first_enabled.
  destruct (first_enabled (transitions (heap s)) e) as [t|] eqn:Hfind.
  - destruct (state_next t) as [next|] eqn:Hnext.
    + destruct (descend heap k next) as [target|] eqn:Hd; [|discriminate].
      intros [= <-]. right. right. exists t, next, target.
      repeat split; auto.
      * apply chain_match_here. exact Hfind.
      * apply (descend_entry_leaf heap k). exact Hd.
    + intros [= <-]. right. left. exists t.
      split; [apply chain_match_here; exact Hfind|]. split; [exact Hnext|].
      unfold error_entry_calls, invoke.
      destruct (state_error m) as [err|]; [|reflexivity].
      destruct (action_entry (heap err)); reflexivity.
  - destruct (state_parent (heap s)) as [parent|] eqn:Hpar.
    + intros Hrun.
      destruct (IH parent Hrun)
        as [[Hno ->] | [(t & Hm & Hn & ->) | (t & n & tg & Hm & Hn & Hl & ->)]].
      * left. split; [|reflexivity].
        apply (chain_no_match_up heap s parent); auto.
      * right. left. exists t. repeat split; auto.
        apply (chain_match_up heap s parent); auto.
      * right. right. exists t, n, tg. repeat split; auto.
        apply (chain_match_up heap s parent); auto.
    + intros [= <-]. left. split; [|reflexivity].
      apply chain_no_match_root; auto.
Qed.

Lemma handle_event_inversion (fuel : nat) (m : state_machine) (e : event)
    (c : state_ref) (o : outcome) :
  state_current m = Some c ->
  statem_handle_event heap fuel (Some m) (Some e) = Some o ->
  dispatched heap m e c o.
Proof.
  intros Hc. unfold statem_handle_event. rewrite Hc.
  destruct (is_final heap c) eqn:Hf.
  - intros [= <-]. apply dispatched_no_match.
    apply final_chain_no_match. exact Hf.
  - intros Hrun.
    destruct (dispatch_inversion fuel m e c c o Hrun)
      as [[Hno ->] | [(t & Hm & Hn & ->) | (t & n & tg & Hm & Hn & Hl & ->)]].
    + apply dispatched_no_match. exact Hno.
    + rewrite Hc. apply (dispatched_null_next heap m e c t); auto.
    + apply (dispatched_transition heap m e c t n tg); auto.
Qed.

Lemma dispatched_runs (m : state_machine) (e : event) (c : state_ref)
    (o : outcome) :
  state_current m = Some c ->
  dispatched heap m e c o ->
  exists fuel0, forall fuel, (fuel0 <= fuel)%nat ->
    statem_handle_event heap fuel (Some m) (Some e) = Some o.
Proof.
  intros Hc [Hno | t Hm Hn | t next target Hm Hn Hl].
  - destruct (dispatch_no_match heap m e c c Hno) as [f0 Hrun].
    exists f0. intros fuel Hle. destruct (is_final heap c) eqn:Hf.
    + apply (final_state_no_change heap fuel m e c Hc Hf).
    + rewrite (handle_event_dispatch heap fuel m e c Hc Hf). auto.
  - destruct (dispatch_match_null heap m e c c t Hm Hn) as [f0 Hrun].
    exists f0. intros fuel Hle.
    rewrite (handle_event_dispatch heap fuel m e c Hc
               (chain_match_not_final heap c e t Hm)).
    rewrite Hrun by exact Hle. rewrite Hc. reflexivity.
  - apply (handle_event_match heap m e c t next target); auto.
Qed.

Lemma take_transition_retval (m : state_machine) (e : event)
    (c : state_ref) (t : transition) (target : state_ref) :
  state_current m = Some c ->
  let o := take_transition heap m e c t target in
  (retval o = STATEM_STATE_LOOPSELF /\ target = c) \/
  (retval o = STATEM_ERR_STATE_RECHED /\ target <> c /\
   state_error m = Some target) \/
  (retval o = STATEM_FINAL_STATE_RECHED /\ target <> c /\
   state_error m <> Some target /\ is_final heap target = true) \/
  (retval o = STATEM_STATE_CHANGED /\ target <> c /\
   state_error m <> Some target /\ is_final heap target = false).
Proof.
  intros Hc. unfold take_transition. simpl. rewrite Hc. simpl.
  destruct (Nat.eqb_spec target c) as [Heq|Hne]; [left; auto|right].
  destruct (state_error m) as [err|]; simpl.
  - destruct (Nat.eqb_spec target err) as [->|Hne'];
      [left; auto|right].
    assert (Some err <> Some target) by congruence.
    destruct (is_final heap target); [left|right]; auto.
  - right.
    destruct (is_final heap target); [left|right]; repeat split;
      auto; discriminate.
Qed.

End Finished.

Lemma handle_event_cases (heap : graph) (fuel : nat) (m : state_machine)
    (e : event) (o : outcome) :
  statem_handle_event heap fuel (Some m) (Some e) = Some o ->
  (state_current m <> None /\
   o = mk_outcome STATEM_STATE_NOCHANGE (Some m) []) \/
  o = mk_outcome STATEM_ERR_STATE_RECHED
        (Some {| state_current := state_error m;
                 state_previous := state_current m;
                 state_error := state_error m |})
        (error_entry_calls heap (state_error m) e) \/
  (exists c t target,
     state_current m = Some c /\
     state_entry (heap target) = None /\
     o = take_transition heap m e c t target).
Proof.
  destruct (state_current m) as [c|] eqn:Hc.
  - intros Hrun.
    destruct (handle_event_inversion heap fuel m e c o Hc Hrun)
      as [Hno | t Hm Hn | t next target Hm Hn Hl].
    + left. split; [discriminate|reflexivity].
    + right. left. reflexivity.
    + right. right. exists c, t, target. repeat split.
      destruct (entry_leaf_descend heap next target Hl) as [f0 Hd].
      apply (descend_leaf heap f0 next). apply Hd. lia.
  - unfold statem_handle_event. rewrite Hc. simpl. intros [= <-].
    right. left. rewrite Hc. unfold error_entry_calls, invoke.
    destruct (state_error m) as [err|]; [|reflexivity].
    destruct (action_entry (heap err)); reflexivity.
Qed.

Lemma handle_event_return_codes_aux (heap : graph) (fuel : nat)
    (m : state_machine) (e : event) (o : outcome) :
  statem_handle_event heap fuel (Some m) (Some e) = Some o ->
  retval o <> STATEM_ERR_ARG.
Proof.
  intros Hrun.
  destruct (handle_event_cases heap fuel m e o Hrun)
    as [[_ ->] | [-> | (c & t & target & Hc & _ & ->)]];
    [discriminate | discriminate |].
  destruct (take_transition_retval heap m e c t target Hc)
    as [[Hr _] | [[Hr _] | [[Hr _] | [Hr _]]]];
    rewrite Hr; discriminate.
Qed.

(** X1. A finished call of [statem_handle_event] returns one of the six
    values of the enumeration, and it returns [STATEM_ERR_ARG] exactly when
    the machine pointer or the event pointer is null; in that case the
    machine object is not written and no hook is invoked. *)
Theorem handle_event_return_codes (heap : graph) (fuel : nat)
    (fsm : option state_machine) (ev : option event) (o : outcome) :
  statem_handle_event heap fuel fsm ev = Some o ->
  In (retval o)
     [STATEM_ERR_ARG; STATEM_ERR_STATE_RECHED; STATEM_STATE_CHANGED;
      STATEM_STATE_LOOPSELF; STATEM_STATE_NOCHANGE;
      STATEM_FINAL_STATE_RECHED] /\
  (retval o = STATEM_ERR_ARG <-> fsm = None \/ ev = None) /\
  (retval o = STATEM_ERR_ARG -> machine o = fsm /\ calls o = []).
Proof.
  destruct fsm as [m|]; [destruct ev as [e|]|].
  - intros Hrun.
    assert (Hcode : In (retval o)
                      [STATEM_ERR_STATE_RECHED; STATEM_STATE_CHANGED;
                       STATEM_STATE_LOOPSELF; STATEM_STATE_NOCHANGE;
                       STATEM_FINAL_STATE_RECHED]).
    { destruct (handle_event_cases heap fuel m e o Hrun)
        as [[_ ->] | [-> | (c & t & target & Hc & _ & ->)]];
        [simpl; auto | simpl; auto |].
      destruct (take_transition_retval heap m e c t target Hc)
        as [[Hr _] | [[Hr _] | [[Hr _] | [Hr _]]]];
        rewrite Hr; simpl; auto 6. }
    split; [right; exact Hcode|].
    assert (Hne : retval o <> STATEM_ERR_ARG).
    { simpl in Hcode. intros Heq. rewrite Heq in Hcode.
      repeat destruct Hcode as [Hcode|Hcode]; try discriminate Hcode;
        exact Hcode. }
    split; [|contradiction].
    split; [contradiction|]. intros [|]; discriminate.
  - simpl. intros [= <-]. simpl. repeat split; auto.
  - simpl. intros [= <-]. simpl. repeat split; auto.
Qed.

Lemma handle_event_return_codes_witness :
  In STATEM_ERR_ARG
     [STATEM_ERR_ARG; STATEM_ERR_STATE_RECHED; STATEM_STATE_CHANGED;
      STATEM_STATE_LOOPSELF; STATEM_STATE_NOCHANGE;
      STATEM_FINAL_STATE_RECHED] /\
  (STATEM_ERR_ARG = STATEM_ERR_ARG <->
   Some (Keyboard.machine_at Keyboard.idle) = None \/ @None event = None) /\
  (STATEM_ERR_ARG = STATEM_ERR_ARG ->
   Some (Keyboard.machine_at Keyboard.idle) =
   Some (Keyboard.machine_at Keyboard.idle) /\ @nil call = []).
Proof.
  apply (handle_event_return_codes Keyboard.heap 0
           (Some (Keyboard.machine_at Keyboard.idle)) None
           (mk_outcome STATEM_ERR_ARG
              (Some (Keyboard.machine_at Keyboard.idle)) [])).
  reflexivity.
Defined.

(** X2. For a machine with the current state [c], the finished calls of
    [statem_handle_event] are exactly these: no table on the parent chain of
    [c] matches and the outcome is "no change" with the machine as it was;
    the first match on the chain has a null [state_next] and the outcome is
    the forced move to the error state; or the first match has a next state
    whose entry chain ends at a target, and the outcome is the transition to
    that target.  An outcome of one of these shapes is the one returned for
    every large enough number of loop iterations. *)
Theorem handle_event_finished_iff (heap : graph) (m : state_machine)
    (e : event) (c : state_ref) (o : outcome) :
  state_current m = Some c ->
  ((exists fuel, statem_handle_event heap fuel (Some m) (Some e) = Some o) <->
   dispatched heap m e c o) /\
  (dispatched heap m e c o ->
   exists fuel0, forall fuel, (fuel0 <= fuel)%nat ->
     statem_handle_event heap fuel (Some m) (Some e) = Some o).
Proof.
  intros Hc. split; [split|].
  - intros [fuel Hrun]. apply (handle_event_inversion heap fuel); auto.
  - intros Hd. destruct (dispatched_runs heap m e c o Hc Hd) as [f0 Hrun].
    exists f0. apply Hrun. lia.
  - apply dispatched_runs. exact Hc.
Qed.

Lemma handle_event_finished_iff_witness :
  ((exists fuel,
      statem_handle_event Keyboard.heap fuel
        (Some (Keyboard.machine_at Keyboard.h)) (Some (Keyboard.key 120)) =
      Some (take_transition Keyboard.heap (Keyboard.machine_at Keyboard.h)
              (Keyboard.key 120) Keyboard.h Keyboard.catch_all
              Keyboard.idle)) <->
   dispatched Keyboard.heap (Keyboard.machine_at Keyboard.h)
     (Keyboard.key 120) Keyboard.h
     (take_transition Keyboard.heap (Keyboard.machine_at Keyboard.h)
        (Keyboard.key 120) Keyboard.h Keyboard.catch_all Keyboard.idle)) /\
  (dispatched Keyboard.heap (Keyboard.machine_at Keyboard.h)
     (Keyboard.key 120) Keyboard.h
     (take_transition Keyboard.heap (Keyboard.machine_at Keyboard.h)
        (Keyboard.key 120) Keyboard.h Keyboard.catch_all Keyboard.idle) ->
   exists fuel0, forall fuel, (fuel0 <= fuel)%nat ->
     statem_handle_event Keyboard.heap fuel
       (Some (Keyboard.machine_at Keyboard.h)) (Some (Keyboard.key 120)) =
     Some (take_transition Keyboard.heap (Keyboard.machine_at Keyboard.h)
             (Keyboard.key 120) Keyboard.h Keyboard.catch_all
             Keyboard.idle)).
Proof.
  apply (handle_event_finished_iff Keyboard.heap
           (Keyboard.machine_at Keyboard.h) (Keyboard.key 120) Keyboard.h).
  reflexivity.
Defined.

(** X3. A finished call of [statem_handle_event] on a machine and an event
    never writes [state_error].  When it returns "no change" it has written
    nothing and invoked no hook; when it returns anything else, the previous
    state reported by [statem_state_previous] afterwards is the current
    state reported by [statem_state_current] before the call. *)
Theorem handle_event_frame (heap : graph) (fuel : nat) (m : state_machine)
    (e : event) (o : outcome) :
  statem_handle_event heap fuel (Some m) (Some e) = Some o ->
  exists m',
    machine o = Some m' /\
    state_error m' = state_error m /\
    (retval o = STATEM_STATE_NOCHANGE -> m' = m /\ calls o = []) /\
    (retval o <> STATEM_STATE_NOCHANGE ->
     statem_state_previous (machine o) = statem_state_current (Some m)).
Proof.
  intros Hrun.
  destruct (handle_event_cases heap fuel m e o Hrun)
    as [[_ ->] | [-> | (c & t & target & Hc & _ & ->)]].
  - exists m. simpl. repeat split; auto. contradiction.
  - eexists. simpl. split; [reflexivity|]. simpl.
    repeat split; auto; discriminate.
  - eexists. split; [reflexivity|]. split; [reflexivity|].
    split; [|intros _; reflexivity].
    destruct (take_transition_retval heap m e c t target Hc)
      as [[Hr _] | [[Hr _] | [[Hr _] | [Hr _]]]];
      intros Hno; rewrite Hr in Hno; discriminate.
Qed.

Lemma handle_event_frame_witness :
  exists m',
    Some {| state_current := Some Keyboard.idle;
            state_previous := Some Keyboard.h;
            state_error := Some Keyboard.error |} = Some m' /\
    state_error m' = Some Keyboard.error /\
    (STATEM_STATE_CHANGED = STATEM_STATE_NOCHANGE ->
     m' = Keyboard.machine_at Keyboard.h /\
     [call_exit Keyboard.print_msg_exit 1002 (Keyboard.key 120);
      call_action Keyboard.print_msg_unrecognised_char 1002
        (Keyboard.key 120) 1001;
      call_entry Keyboard.print_msg_enter 1001 (Keyboard.key 120)] = []) /\
    (STATEM_STATE_CHANGED <> STATEM_STATE_NOCHANGE ->
     Some Keyboard.h = Some Keyboard.h).
Proof.
  apply (handle_event_frame Keyboard.heap 2
           (Keyboard.machine_at Keyboard.h) (Keyboard.key 120)
           (mk_outcome STATEM_STATE_CHANGED
              (Some {| state_current := Some Keyboard.idle;
                       state_previous := Some Keyboard.h;
                       state_error := Some Keyboard.error |})
              [call_exit Keyboard.print_msg_exit 1002 (Keyboard.key 120);
               call_action Keyboard.print_msg_unrecognised_char 1002
                 (Keyboard.key 120) 1001;
               call_entry Keyboard.print_msg_enter 1001 (Keyboard.key 120)])).
  reflexivity.
Defined.

(** X4. The value returned by a finished call of [statem_handle_event]
    tells where the machine is afterwards.  "Error state reached": the
    current state is the configured error state.  "Loop-self": the current
    state is the one before the call, no exit or entry action was invoked
    and at most one hook was.  "State changed" and "final state reached":
    the current state is a state without an entry state, different from the
    state before the call and from the error state, and it is final (no
    transitions, no parent) exactly when the value is "final state
    reached". *)
Theorem handle_event_retval_sound (heap : graph) (fuel : nat)
    (m : state_machine) (e : event) (o : outcome) :
  statem_handle_event heap fuel (Some m) (Some e) = Some o ->
  (retval o = STATEM_ERR_STATE_RECHED ->
   statem_state_current (machine o) = state_error m) /\
  (retval o = STATEM_STATE_LOOPSELF ->
   statem_state_current (machine o) = state_current m /\
   state_current m <> None /\
   (length (calls o) <= 1)%nat /\
   Forall (fun k => match k with
                    | call_action _ _ _ _ => True
                    | _ => False
                    end) (calls o)) /\
  (retval o = STATEM_STATE_CHANGED \/ retval o = STATEM_FINAL_STATE_RECHED ->
   exists target,
     statem_state_current (machine o) = Some target /\
     state_entry (heap target) = None /\
     Some target <> state_current m /\
     Some target <> state_error m /\
     (is_final heap target = true <->
      retval o = STATEM_FINAL_STATE_RECHED)).
Proof.
  intros Hrun.
  destruct (handle_event_cases heap fuel m e o Hrun)
    as [[_ ->] | [-> | (c & t & target & Hc & Hleaf & ->)]].
  - simpl. repeat split; try discriminate. intros [|]; discriminate.
  - simpl. repeat split; try discriminate. intros [|]; discriminate.
  - destruct (take_transition_retval heap m e c t target Hc)
      as [[Hr Ht] | [[Hr (Hne & Herr)] |
          [[Hr (Hne & Herr & Hf)] | [Hr (Hne & Herr & Hf)]]]];
      rewrite Hr; (split; [|split]); try discriminate;
      try (intros [|]; discriminate).
    + intros _. subst target. rewrite Hc.
      split; [reflexivity|]. split; [discriminate|].
      unfold take_transition, invoke. cbn [calls].
      rewrite Nat.eqb_refl. simpl. rewrite app_nil_r.
      destruct (action t); simpl; split; auto.
    + intros _. rewrite Herr. reflexivity.
    + intros _. exists target. rewrite Hc.
      repeat split; auto; congruence.
    + intros _. exists target. rewrite Hc.
      repeat split; auto; try congruence. discriminate.
Qed.

Lemma handle_event_retval_sound_witness :
  (STATEM_STATE_LOOPSELF = STATEM_ERR_STATE_RECHED ->
   Some Keyboard.idle = Some Keyboard.error) /\
  (STATEM_STATE_LOOPSELF = STATEM_STATE_LOOPSELF ->
   Some Keyboard.idle = Some Keyboard.idle /\
   Some Keyboard.idle <> None /\
   le (length [call_action Keyboard.print_msg_reset 1001 (Keyboard.key 33)
                 1001]) 1%nat /\
   Forall (fun k => match k with
                    | call_action _ _ _ _ => True
                    | _ => False
                    end)
     [call_action Keyboard.print_msg_reset 1001 (Keyboard.key 33) 1001]) /\
  (STATEM_STATE_LOOPSELF = STATEM_STATE_CHANGED \/
   STATEM_STATE_LOOPSELF = STATEM_FINAL_STATE_RECHED ->
   exists target,
     Some Keyboard.idle = Some target /\
     state_entry (Keyboard.heap target) = None /\
     Some target <> Some Keyboard.idle /\
     Some target <> Some Keyboard.error /\
     (is_final Keyboard.heap target = true <->
      STATEM_STATE_LOOPSELF = STATEM_FINAL_STATE_RECHED)).
Proof.
  apply (handle_event_retval_sound Keyboard.heap 2
           (Keyboard.machine_at Keyboard.idle) (Keyboard.key 33)
           (mk_outcome STATEM_STATE_LOOPSELF
              (Some {| state_current := Some Keyboard.idle;
                       state_previous := Some Keyboard.idle;
                       state_error := Some Keyboard.error |})
              [call_action Keyboard.print_msg_reset 1001 (Keyboard.key 33)
                 1001])).
  reflexivity.
Defined.

(** ** Runs of the event loop *)

Section Runs.

Variable heap : graph.

Lemma handle_events_final (fuel : nat) (m : state_machine) (c : state_ref)
    (evs : list event) :
  state_current m = Some c ->
  is_final heap c = true ->
  handle_events heap fuel m evs =
  Some (m, repeat STATEM_STATE_NOCHANGE (length evs), []).
Proof.
  intros Hc Hf. induction evs as [|e rest IH]; [reflexivity|].
  cbn [handle_events].
  rewrite (final_state_no_change heap fuel m e c Hc Hf).
  cbn [machine retval calls]. rewrite IH. reflexivity.
Qed.

Lemma handle_events_step (fuel : nat) (m : state_machine) (e : event)
    (rest : list event) (mf : state_machine) (rs : list Z)
    (cs : list call) :
  handle_events heap fuel m (e :: rest) = Some (mf, rs, cs) ->
  exists o m' rs' cs',
    statem_handle_event heap fuel (Some m) (Some e) = Some o /\
    machine o = Some m' /\
    handle_events heap fuel m' rest = Some (mf, rs', cs') /\
    rs = retval o :: rs' /\ cs = calls o ++ cs'.
Proof.
  cbn [handle_events].
  destruct (statem_handle_event heap fuel (Some m) (Some e)) as [o|] eqn:Ho;
    [|discriminate].
  destruct (machine o) as [m'|] eqn:Hm; [|discriminate].
  destruct (handle_events heap fuel m' rest) as [[[mf' rs'] cs']|] eqn:Hr;
    [|discriminate].
  intros [= <- <- <-]. exists o, m', rs', cs'. repeat split; auto.
Qed.

End Runs.

(** X5. When [statem_handle_event] returns "final state reached", the
    machine has stopped: [statem_stopped] returns 1 on it, and the event
    loop, whatever events follow, answers each of them "no change", leaves
    the machine as it is and invokes no hook. *)
Theorem handle_event_final_stops (heap : graph) (fuel : nat)
    (m : state_machine) (e : event) (o : outcome) :
  statem_handle_event heap fuel (Some m) (Some e) = Some o ->
  retval o = STATEM_FINAL_STATE_RECHED ->
  exists m',
    machine o = Some m' /\
    statem_stopped heap (machine o) = Returns 1 /\
    forall fuel' evs,
      handle_events heap fuel' m' evs =
      Some (m', repeat STATEM_STATE_NOCHANGE (length evs), []).
Proof.
  intros Hrun Hret.
  destruct (handle_event_cases heap fuel m e o Hrun)
    as [[_ ->] | [-> | (c & t & target & Hc & Hleaf & ->)]];
    try discriminate Hret.
  destruct (take_transition_retval heap m e c t target Hc)
    as [[Hr _] | [[Hr _] | [[_ (_ & _ & Hf)] | [Hr _]]]];
    try (rewrite Hr in Hret; discriminate Hret).
  eexists. split; [reflexivity|]. split.
  - unfold is_final in Hf. apply andb_true_iff in Hf as [Hlen _].
    cbn. rewrite Hlen. reflexivity.
  - intros fuel' evs.
    apply (handle_events_final heap fuel' _ target); [reflexivity|exact Hf].
Qed.

Lemma handle_event_final_stops_witness :
  exists m',
    Some {| state_current := Some Faulty.done;
            state_previous := Some Faulty.start;
            state_error := Some Faulty.failed |} = Some m' /\
    statem_stopped Faulty.heap
      (Some {| state_current := Some Faulty.done;
               state_previous := Some Faulty.start;
               state_error := Some Faulty.failed |}) = Returns 1 /\
    forall fuel' evs,
      handle_events Faulty.heap fuel' m' evs =
      Some (m', repeat STATEM_STATE_NOCHANGE (length evs), []).
Proof.
  apply (handle_event_final_stops Faulty.heap 1
           (Faulty.machine_at Faulty.start (Some Faulty.failed))
           (mk_event Faulty.EV_FINISH 0)
           (mk_outcome STATEM_FINAL_STATE_RECHED
              (Some {| state_current := Some Faulty.done;
                       state_previous := Some Faulty.start;
                       state_error := Some Faulty.failed |})
              [call_exit 11%nat 500 (mk_event Faulty.EV_FINISH 0);
               call_action 21%nat 500 (mk_event Faulty.EV_FINISH 0) 501;
               call_entry 12%nat 501 (mk_event Faulty.EV_FINISH 0)])).
  - reflexivity.
  - reflexivity.
Defined.

(** X6. Along the event loop the machine only rests in the state it started
    in, in the configured error state, or in a state without an entry state:
    after any finished run, [state_current] is one of these.  The run never
    writes [state_error], answers every event, and never returns
    [STATEM_ERR_ARG]. *)
Theorem handle_events_resting (heap : graph) (fuel : nat)
    (evs : list event) (m mf : state_machine) (rs : list Z)
    (cs : list call) :
  handle_events heap fuel m evs = Some (mf, rs, cs) ->
  state_error mf = state_error m /\
  length rs = length evs /\
  ~ In STATEM_ERR_ARG rs /\
  (state_current mf = state_current m \/
   state_current mf = state_error m \/
   exists s, state_current mf = Some s /\ state_entry (heap s) = None).
Proof.
  revert m rs cs. induction evs as [|e rest IH]; intros m rs cs.
  - intros [= <- <- <-]. repeat split; auto.
  - intros Hrun.
    destruct (handle_events_step heap fuel m e rest mf rs cs Hrun)
      as (o & m' & rs' & cs' & Ho & Hm & Hrest & -> & ->).
    destruct (IH m' rs' cs' Hrest) as (Herr & Hlen & Harg & Hcur).
    pose proof (handle_event_return_codes_aux heap fuel m e o Ho) as Hne.
    assert (Hstep : state_error m' = state_error m /\
                    (state_current m' = state_current m \/
                     state_current m' = state_error m \/
                     exists s, state_current m' = Some s /\
                               state_entry (heap s) = None)).
    { destruct (handle_event_cases heap fuel m e o Ho)
        as [[_ ->] | [-> | (c & t & target & Hc & Hleaf & ->)]];
        injection Hm as <-; simpl; split; auto.
      right. right. exists target. auto. }
    destruct Hstep as (Herr' & Hcur').
    split; [congruence|]. split; [simpl; congruence|].
    split; [intros [Hin|Hin]; [congruence|contradiction]|].
    destruct Hcur as [Hsame | [Hiserr | Hleaf]].
    + rewrite Hsame. exact Hcur'.
    + right. left. congruence.
    + right. right. exact Hleaf.
Qed.

Lemma handle_events_resting_witness :
  Some Keyboard.error = Some Keyboard.error /\
  length [STATEM_STATE_CHANGED; STATEM_STATE_CHANGED; STATEM_STATE_CHANGED] =
  length [Keyboard.key 104; Keyboard.key 97; Keyboard.key 110] /\
  ~ In STATEM_ERR_ARG
      [STATEM_STATE_CHANGED; STATEM_STATE_CHANGED; STATEM_STATE_CHANGED] /\
  (Some Keyboard.idle = Some Keyboard.idle \/
   Some Keyboard.idle = Some Keyboard.error \/
   exists s, Some Keyboard.idle = Some s /\
             state_entry (Keyboard.heap s) = None).
Proof.
  apply (handle_events_resting Keyboard.heap 2
           [Keyboard.key 104; Keyboard.key 97; Keyboard.key 110]
           (Keyboard.machine_at Keyboard.idle)
           {| state_current := Some Keyboard.idle;
              state_previous := Some Keyboard.a;
              state_error := Some Keyboard.error |}
           [STATEM_STATE_CHANGED; STATEM_STATE_CHANGED; STATEM_STATE_CHANGED]
           [call_exit 2%nat 1001 (Keyboard.key 104);
            call_entry 3%nat 1002 (Keyboard.key 104);
            call_exit 2%nat 1002 (Keyboard.key 97);
            call_entry 3%nat 1004 (Keyboard.key 97);
            call_exit 2%nat 1004 (Keyboard.key 110);
            call_action 7%nat 1004 (Keyboard.key 110) 1001;
            call_entry 1%nat 1001 (Keyboard.key 110)]).
  reflexivity.
Defined.

(** ** Cycles and termination *)

Section Termination.

Variable heap : graph.

Lemma dispatch_endless (m : state_machine) (e : event) (cur : state_ref)
    (P : state_ref -> Prop) :
  (forall x, P x ->
     first_enabled (transitions (heap x)) e = None /\
     exists p, state_parent (heap x) = Some p /\ P p) ->
  forall fuel s, P s -> dispatch heap fuel m e cur s = None.
Proof.
  intros Hclosed. induction fuel as [|k IH]; intros s Hs; [reflexivity|].
  destruct (Hclosed s Hs) as (Hfind & p & Hpar & Hp).
  simpl. rewrite scan_transitions_first_enabled, Hfind, Hpar.
  apply IH. exact Hp.
Qed.

Lemma descend_endless (P : state_ref -> Prop) :
  (forall x, P x -> exists child, state_entry (heap x) = Some child /\ P child) ->
  forall fuel s, P s -> descend heap fuel s = None.
Proof.
  intros Hclosed. induction fuel as [|k IH]; intros s Hs;
    destruct (Hclosed s Hs) as (child & Hentry & Hchild);
    simpl; rewrite Hentry; [reflexivity|].
  apply IH. exact Hchild.
Qed.

Lemma dispatch_entry_endless (m : state_machine) (e : event)
    (cur s : state_ref) (t : transition) (next : state_ref) :
  chain_match heap s e t ->
  state_next t = Some next ->
  entry_chain_endless heap next ->
  forall fuel, dispatch heap fuel m e cur s = None.
Proof.
  intros Hmatch Hnext (P & Hp & Hclosed).
  induction Hmatch as [s e t Hfind | s parent e t Hfind Hpar _ IH];
    intros [|k]; try reflexivity; simpl;
    rewrite scan_transitions_first_enabled, Hfind.
  - rewrite Hnext, (descend_endless P Hclosed k next Hp). reflexivity.
  - rewrite Hpar. apply IH. exact Hnext.
Qed.

Lemma descend_total (rank : state_ref -> nat) :
  (forall s child, state_entry (heap s) = Some child ->
                   (rank child < rank s)%nat) ->
  forall fuel s, (rank s <= fuel)%nat ->
    exists leaf, descend heap fuel s = Some leaf.
Proof.
  intros Hdec. induction fuel as [|k IH]; intros s Hle; simpl;
    destruct (state_entry (heap s)) as [child|] eqn:Hentry;
    try (exists s; reflexivity).
  - specialize (Hdec s child Hentry). lia.
  - apply IH. specialize (Hdec s child Hentry). lia.
Qed.

Lemma dispatch_total (parent_rank entry_rank : state_ref -> nat) (bound : nat)
    (m : state_machine) (e : event) (cur : state_ref) :
  (forall s p, state_parent (heap s) = Some p ->
               (parent_rank p < parent_rank s)%nat) ->
  (forall s child, state_entry (heap s) = Some child ->
                   (entry_rank child < entry_rank s)%nat) ->
  (forall s, (entry_rank s <= bound)%nat) ->
  forall fuel s, (parent_rank s + bound + 1 <= fuel)%nat ->
    exists o, dispatch heap fuel m e cur s = Some o.
Proof.
  intros Hpar Hentry Hbound.
  induction fuel as [|k IH]; intros s Hle; [lia|].
  simpl. destruct (scan_transitions (transitions (heap s)) e) as [t|].
  - destruct (state_next t) as [next|]; [|eexists; reflexivity].
    destruct (descend_total entry_rank Hentry k next) as [leaf Hd].
    + specialize (Hbound next). lia.
    + rewrite Hd. eexists. reflexivity.
  - destruct (state_parent (heap s)) as [p|] eqn:Hp;
      [|eexists; reflexivity].
    apply IH. specialize (Hpar s p Hp). lia.
Qed.

End Termination.

(** X7. When no table on the parent chain of the current state matches the
    event and the chain never reaches a state without a parent (it runs into
    a cycle), the lookup loop of [statem_handle_event] does not finish: no
    number of iterations yields a result. *)
Theorem handle_event_parent_cycle (heap : graph) (m : state_machine)
    (e : event) (c : state_ref) :
  state_current m = Some c ->
  parent_chain_endless heap e c ->
  forall fuel, statem_handle_event heap fuel (Some m) (Some e) = None.
Proof.
  intros Hc (P & Hp & Hclosed) fuel.
  destruct (Hclosed c Hp) as (_ & p & Hpar & _).
  assert (Hf : is_final heap c = false).
  { unfold is_final. rewrite Hpar. apply andb_false_r. }
  rewrite (handle_event_dispatch heap fuel m e c Hc Hf).
  apply (dispatch_endless heap m e c P Hclosed fuel c Hp).
Qed.

Lemma handle_event_parent_cycle_witness :
  forallb (fun fuel =>
    match statem_handle_event Cyclic.heap fuel
            (Some (mk_state_machine (Some 0%nat) None None))
            (Some (mk_event 0 0)) with
    | None => true
    | Some _ => false
    end) (seq 0 40) = true /\
  statem_handle_event Cyclic.heap 1000
    (Some (mk_state_machine (Some 0%nat) None None)) (Some (mk_event 0 0)) =
  None.
Proof.
  split; [reflexivity|].
  apply (handle_event_parent_cycle Cyclic.heap
           (mk_state_machine (Some 0%nat) None None) (mk_event 0 0) 0%nat).
  - reflexivity.
  - exists (fun x => x = 0%nat). split; [reflexivity|].
    intros x ->. split; [reflexivity|]. exists 0%nat. split; reflexivity.
Defined.

(** X8. When the matched transition leads to a state whose chain of
    [state_entry] pointers never reaches a state without an entry state (it
    runs into a cycle), the descent loop of [statem_handle_event] does not
    finish: no number of iterations yields a result. *)
Theorem handle_event_entry_cycle (heap : graph) (m : state_machine)
    (e : event) (c : state_ref) (t : transition) (next : state_ref) :
  state_current m = Some c ->
  chain_match heap c e t ->
  state_next t = Some next ->
  entry_chain_endless heap next ->
  forall fuel, statem_handle_event heap fuel (Some m) (Some e) = None.
Proof.
  intros Hc Hmatch Hnext Hendless fuel.
  rewrite (handle_event_dispatch heap fuel m e c Hc
             (chain_match_not_final heap c e t Hmatch)).
  apply (dispatch_entry_endless heap m e c c t next); auto.
Qed.

Lemma handle_event_entry_cycle_witness :
  statem_handle_event Cyclic.heap 1000
    (Some (mk_state_machine (Some 1%nat) None None)) (Some (mk_event 0 0)) =
  None.
Proof.
  apply (handle_event_entry_cycle Cyclic.heap
           (mk_state_machine (Some 1%nat) None None) (mk_event 0 0) 1%nat
           (mk_transition 0 0 None None (Some 2%nat)) 2%nat).
  - reflexivity.
  - apply chain_match_here. reflexivity.
  - reflexivity.
  - exists (fun x => x = 2%nat). split; [reflexivity|].
    intros x ->. exists 2%nat. split; reflexivity.
Defined.

(** X9. On a graph without cycles, [statem_handle_event] always returns:
    when parent pointers strictly decrease a rank, entry pointers strictly
    decrease another, and both ranks are at most [bound], then for any
    machine pointer and event pointer, one iteration more than twice [bound]
    is enough for the call to finish. *)
Theorem handle_event_terminates (heap : graph)
    (parent_rank entry_rank : state_ref -> nat) (bound : nat)
    (fsm : option state_machine) (ev : option event) (fuel : nat) :
  (forall s p, state_parent (heap s) = Some p ->
               (parent_rank p < parent_rank s)%nat) ->
  (forall s child, state_entry (heap s) = Some child ->
                   (entry_rank child < entry_rank s)%nat) ->
  (forall s, (parent_rank s <= bound)%nat /\ (entry_rank s <= bound)%nat) ->
  (2 * bound + 1 <= fuel)%nat ->
  exists o, statem_handle_event heap fuel fsm ev = Some o.
Proof.
  intros Hpar Hentry Hbound Hfuel.
  destruct fsm as [m|]; [|eexists; reflexivity].
  destruct ev as [e|]; [|eexists; reflexivity].
  unfold statem_handle_event.
  destruct (state_current m) as [c|]; [|eexists; reflexivity].
  destruct (is_final heap c); [eexists; reflexivity|].
  apply (dispatch_total heap parent_rank entry_rank bound); auto.
  - intros s. apply Hbound.
  - destruct (Hbound c). lia.
Qed.

Lemma handle_event_terminates_witness :
  exists o,
    statem_handle_event Keyboard.heap 3
      (Some (Keyboard.machine_at Keyboard.h)) (Some (Keyboard.key 120)) =
    Some o.
Proof.
  apply (handle_event_terminates Keyboard.heap
           keyboard_parent_rank keyboard_entry_rank 1).
  - intros [|[|[|[|[|s]]]]] p; simpl; intros [= <-]; simpl; lia.
  - intros [|[|[|[|[|s]]]]] child; simpl; intros [= <-]; simpl; lia.
  - intros [|[|[|[|[|s]]]]]; simpl; lia.
  - simpl. lia.
Defined.

(** ** The example programs *)

Section OneLevel.

Variable heap : graph.

Lemma handle_event_here (k : nat) (m : state_machine) (e : event)
    (c : state_ref) (t : transition) (target : state_ref) :
  state_current m = Some c ->
  first_enabled (transitions (heap c)) e = Some t ->
  state_next t = Some target ->
  state_entry (heap target) = None ->
  statem_handle_event heap (S k) (Some m) (Some e) =
  Some (take_transition heap m e c t target).
Proof.
  intros Hc Hfind Hnext Hleaf.
  rewrite (handle_event_dispatch heap (S k) m e c Hc
             (chain_match_not_final heap c e t
                (chain_match_here heap c e t Hfind))).
  simpl. rewrite scan_transitions_first_enabled, Hfind, Hnext.
  rewrite (descend_at_leaf heap k target Hleaf). reflexivity.
Qed.

Lemma handle_event_at_parent (k : nat) (m : state_machine) (e : event)
    (c p : state_ref) (t : transition) (target : state_ref) :
  state_current m = Some c ->
  first_enabled (transitions (heap c)) e = None ->
  state_parent (heap c) = Some p ->
  first_enabled (transitions (heap p)) e = Some t ->
  state_next t = Some target ->
  state_entry (heap target) = None ->
  statem_handle_event heap (S (S k)) (Some m) (Some e) =
  Some (take_transition heap m e c t target).
Proof.
  intros Hc Hnone Hpar Hfind Hnext Hleaf.
  assert (Hf : is_final heap c = false).
  { unfold is_final. rewrite Hpar. apply andb_false_r. }
  rewrite (handle_event_dispatch heap (S (S k)) m e c Hc Hf).
  simpl. rewrite scan_transitions_first_enabled, Hnone, Hpar.
  rewrite scan_transitions_first_enabled, Hfind, Hnext.
  rewrite (descend_at_leaf heap k target Hleaf). reflexivity.
Qed.

Lemma handle_event_ignored (k : nat) (m : state_machine) (e : event)
    (c : state_ref) :
  state_current m = Some c ->
  first_enabled (transitions (heap c)) e = None ->
  state_parent (heap c) = None ->
  statem_handle_event heap (S k) (Some m) (Some e) =
  Some (mk_outcome STATEM_STATE_NOCHANGE (Some m) []).
Proof.
  intros Hc Hnone Hpar. unfold statem_handle_event. rewrite Hc.
  destruct (is_final heap c); [reflexivity|].
  simpl. rewrite scan_transitions_first_enabled, Hnone, Hpar. reflexivity.
Qed.

(** A machine that follows an automaton step by step follows it along the
    event loop. *)
Lemma handle_events_simulation {E : Type} (fuel : nat)
    (inv : state_ref -> Prop) (mk : E -> event)
    (step : state_ref -> E -> state_ref) (ret : state_ref -> E -> Z)
    (err : option state_ref) :
  (forall s prev x, inv s ->
     exists o,
       statem_handle_event heap fuel
         (Some (mk_state_machine (Some s) prev err)) (Some (mk x)) = Some o /\
       retval o = ret s x /\
       (exists prev',
          machine o = Some (mk_state_machine (Some (step s x)) prev' err)) /\
       inv (step s x)) ->
  forall xs s prev, inv s ->
    exists prevf cs,
      handle_events heap fuel (mk_state_machine (Some s) prev err)
        (map mk xs) =
      Some (mk_state_machine (Some (fst (automaton_run step ret s xs)))
              prevf err,
            snd (automaton_run step ret s xs), cs) /\
      inv (fst (automaton_run step ret s xs)).
Proof.
  intros Hstep. induction xs as [|x rest IH]; intros s prev Hs.
  - exists prev, []. split; [reflexivity|exact Hs].
  - destruct (Hstep s prev x Hs) as (o & Ho & Hret & (prev' & Hm) & Hinv).
    destruct (IH (step s x) prev' Hinv) as (prevf & cs & Hrun & Hinvf).
    exists prevf, (calls o ++ cs).
    cbn [map handle_events automaton_run].
    rewrite Ho, Hm, Hrun, Hret.
    destruct (automaton_run step ret (step s x) rest) as [sf rs].
    split; [reflexivity|exact Hinvf].
Qed.

End OneLevel.

Lemma keyboard_enabled_on_char (ch c : Z) (act : option fn_ref)
    (next : state_ref) :
  enabled (Keyboard.key ch) (Keyboard.on_char c act next) = (c =? ch).
Proof. reflexivity. Qed.

Ltac keyboard_table :=
  unfold first_enabled;
  cbn [find transitions Keyboard.heap Keyboard.charsgroup_check
         Keyboard.idle Keyboard.h Keyboard.i Keyboard.a];
  rewrite ?keyboard_enabled_on_char.

Ltac keyboard_next :=
  cbv beta iota delta [keyboard_step Keyboard.idle Keyboard.h Keyboard.i
                         Keyboard.a].

Lemma keyboard_fallback (k : nat) (s : state_ref) (prev : option state_ref)
    (ch : Z) :
  state_parent (Keyboard.heap s) = Some Keyboard.charsgroup_check ->
  first_enabled (transitions (Keyboard.heap s)) (Keyboard.key ch) = None ->
  exists t,
    statem_handle_event Keyboard.heap (S (S k))
      (Some (mk_state_machine (Some s) prev (Some Keyboard.error)))
      (Some (Keyboard.key ch)) =
    Some (take_transition Keyboard.heap
            (mk_state_machine (Some s) prev (Some Keyboard.error))
            (Keyboard.key ch) s t Keyboard.idle).
Proof.
  intros Hpar Hnone.
  assert (Hgroup :
    exists t,
      first_enabled (transitions (Keyboard.heap Keyboard.charsgroup_check))
        (Keyboard.key ch) = Some t /\
      state_next t = Some Keyboard.idle).
  { change (transitions (Keyboard.heap Keyboard.charsgroup_check))
      with [Keyboard.on_char 33 (Some Keyboard.print_msg_reset) Keyboard.idle;
            Keyboard.catch_all].
    unfold first_enabled. cbn [find].
    rewrite keyboard_enabled_on_char.
    destruct (33 =? ch); eexists; split; reflexivity. }
  destruct Hgroup as (t & Hfind & Hnext).
  exists t.
  apply (handle_event_at_parent Keyboard.heap k _ _ s
           Keyboard.charsgroup_check t Keyboard.idle); auto.
Qed.

Lemma keyboard_handle_event (k : nat) (s : state_ref)
    (prev : option state_ref) (ch : Z) :
  In s [Keyboard.idle; Keyboard.h; Keyboard.i; Keyboard.a] ->
  exists o,
    statem_handle_event Keyboard.heap (S (S k))
      (Some (mk_state_machine (Some s) prev (Some Keyboard.error)))
      (Some (Keyboard.key ch)) = Some o /\
    retval o = keyboard_ret s ch /\
    (exists prev',
       machine o =
       Some (mk_state_machine (Some (keyboard_step s ch)) prev'
               (Some Keyboard.error))) /\
    In (keyboard_step s ch)
       [Keyboard.idle; Keyboard.h; Keyboard.i; Keyboard.a].
Proof.
  assert (Hfall : forall s0,
    In s0 [Keyboard.idle; Keyboard.h; Keyboard.i; Keyboard.a] ->
    first_enabled (transitions (Keyboard.heap s0)) (Keyboard.key ch) = None ->
    keyboard_step s0 ch = Keyboard.idle ->
    exists o,
      statem_handle_event Keyboard.heap (S (S k))
        (Some (mk_state_machine (Some s0) prev (Some Keyboard.error)))
        (Some (Keyboard.key ch)) = Some o /\
      retval o = keyboard_ret s0 ch /\
      (exists prev',
         machine o =
         Some (mk_state_machine (Some (keyboard_step s0 ch)) prev'
                 (Some Keyboard.error))) /\
      In (keyboard_step s0 ch)
         [Keyboard.idle; Keyboard.h; Keyboard.i; Keyboard.a]).
  { intros s0 Hin Hnone Hstep.
    assert (Hpar : state_parent (Keyboard.heap s0) =
                   Some Keyboard.charsgroup_check).
    { simpl in Hin. destruct Hin as [<-|[<-|[<-|[<-|[]]]]]; reflexivity. }
    destruct (keyboard_fallback k s0 prev ch Hpar Hnone) as [t Hrun].
    eexists. split; [exact Hrun|].
    unfold keyboard_ret. rewrite Hstep.
    split; [|split; [eexists; reflexivity|simpl; auto]].
    simpl in Hin. destruct Hin as [<-|[<-|[<-|[<-|[]]]]]; reflexivity. }
  intros Hin. simpl in Hin.
  destruct Hin as [<-|[<-|[<-|[<-|[]]]]].
  - (* idle *)
    destruct (Z.eqb_spec ch 104) as [->|Hne].
    + eexists. split.
      * apply (handle_event_here Keyboard.heap (S k) _ _ Keyboard.idle
                 (Keyboard.on_char 104 None Keyboard.h) Keyboard.h);
          reflexivity.
      * repeat split; [eexists; reflexivity | simpl; auto].
    + apply Hfall; [simpl; auto | |].
      * keyboard_table. rewrite Z.eqb_sym.
        apply Z.eqb_neq in Hne. rewrite Hne. reflexivity.
      * keyboard_next. apply Z.eqb_neq in Hne. rewrite Hne. reflexivity.
  - (* h *)
    destruct (Z.eqb_spec ch 97) as [->|Hne97].
    + eexists. split.
      * apply (handle_event_here Keyboard.heap (S k) _ _ Keyboard.h
                 (Keyboard.on_char 97 None Keyboard.a) Keyboard.a);
          reflexivity.
      * repeat split; [eexists; reflexivity | simpl; auto].
    + destruct (Z.eqb_spec ch 105) as [->|Hne105].
      * eexists. split.
        -- apply (handle_event_here Keyboard.heap (S k) _ _ Keyboard.h
                    (Keyboard.on_char 105 None Keyboard.i) Keyboard.i);
             reflexivity.
        -- repeat split; [eexists; reflexivity | simpl; auto].
      * apply Z.eqb_neq in Hne97, Hne105.
        apply Hfall; [simpl; auto | |].
        -- keyboard_table.
           rewrite (Z.eqb_sym 97 ch), (Z.eqb_sym 105 ch), Hne97, Hne105.
           reflexivity.
        -- keyboard_next. rewrite Hne97, Hne105. reflexivity.
  - (* i *)
    destruct (Z.eqb_spec ch 110) as [->|Hne].
    + eexists. split.
      * apply (handle_event_here Keyboard.heap (S k) _ _ Keyboard.i
                 (Keyboard.on_char 110 (Some Keyboard.print_msg_hi)
                    Keyboard.idle) Keyboard.idle);
          reflexivity.
      * repeat split; [eexists; reflexivity | simpl; auto].
    + apply Hfall; [simpl; auto | | reflexivity].
      keyboard_table. rewrite Z.eqb_sym.
      apply Z.eqb_neq in Hne. rewrite Hne. reflexivity.
  - (* a *)
    destruct (Z.eqb_spec ch 110) as [->|Hne].
    + eexists. split.
      * apply (handle_event_here Keyboard.heap (S k) _ _ Keyboard.a
                 (Keyboard.on_char 110 (Some Keyboard.print_msg_ha)
                    Keyboard.idle) Keyboard.idle);
          reflexivity.
      * repeat split; [eexists; reflexivity | simpl; auto].
    + apply Hfall; [simpl; auto | | reflexivity].
      keyboard_table. rewrite Z.eqb_sym.
      apply Z.eqb_neq in Hne. rewrite Hne. reflexivity.
Qed.

Lemma automaton_run_rets {E : Type} (step : state_ref -> E -> state_ref)
    (ret : state_ref -> E -> Z) (P : Z -> Prop) :
  (forall s x, P (ret s x)) ->
  forall xs s, Forall P (snd (automaton_run step ret s xs)).
Proof.
  intros Hret. induction xs as [|x rest IH]; intros s; simpl.
  - constructor.
  - specialize (IH (step s x)).
    destruct (automaton_run step ret (step s x) rest) as [sf rs].
    constructor; [apply Hret|exact IH].
Qed.

(** X10. The keyboard example follows its diagram.  After [statem_init]
    with [state_idle] and [state_error], whatever the machine object held
    before and whatever characters are received, every call of
    [statem_handle_event] in the loop of [state_process] finishes within two
    iterations; the current state is the one the diagram gives ([idle] to
    [h] on 'h', [h] to [a] on 'a' and to [i] on 'i', [idle] in every other
    case); each call returns "state changed", or "loop-self" when the state
    stays; and the machine stays among the children of the group state and
    never enters the error state. *)
Theorem keyboard_process_follows_diagram (fuel : nat)
    (garbage : state_machine) (chs : list Z) :
  (2 <= fuel)%nat ->
  exists prevf cs,
    state_process Keyboard.heap fuel garbage
      (Some Keyboard.idle) (Some Keyboard.error) (map Keyboard.key chs) =
    Some (mk_state_machine
            (Some (fst (automaton_run keyboard_step keyboard_ret
                          Keyboard.idle chs)))
            prevf (Some Keyboard.error),
          snd (automaton_run keyboard_step keyboard_ret Keyboard.idle chs),
          cs) /\
    keyboard_in_group
      (mk_state_machine
         (Some (fst (automaton_run keyboard_step keyboard_ret
                       Keyboard.idle chs)))
         prevf (Some Keyboard.error)) /\
    Forall (fun r => r = STATEM_STATE_CHANGED \/ r = STATEM_STATE_LOOPSELF)
      (snd (automaton_run keyboard_step keyboard_ret Keyboard.idle chs)).
Proof.
  intros Hfuel.
  destruct fuel as [|[|k]]; try lia.
  destruct (handle_events_simulation Keyboard.heap (S (S k))
              (fun s => In s [Keyboard.idle; Keyboard.h; Keyboard.i;
                              Keyboard.a])
              Keyboard.key keyboard_step keyboard_ret (Some Keyboard.error)
              (fun s prev x Hs => keyboard_handle_event k s prev x Hs)
              chs Keyboard.idle None)
    as (prevf & cs & Hrun & Hinv); [simpl; auto|].
  exists prevf, cs. split; [exact Hrun|]. split.
  - unfold keyboard_in_group. cbn [state_current state_error].
    split; [|reflexivity].
    simpl in Hinv. destruct Hinv as [<-|[<-|[<-|[<-|[]]]]]; auto.
  - apply automaton_run_rets. intros s x. unfold keyboard_ret.
    destruct (Nat.eqb _ _); auto.
Qed.

Lemma keyboard_process_follows_diagram_witness :
  exists prevf cs,
    state_process Keyboard.heap 2 (mk_state_machine None None None)
      (Some Keyboard.idle) (Some Keyboard.error)
      (map Keyboard.key [104; 97; 110]) =
    Some (mk_state_machine
            (Some (fst (automaton_run keyboard_step keyboard_ret
                          Keyboard.idle [104; 97; 110])))
            prevf (Some Keyboard.error),
          snd (automaton_run keyboard_step keyboard_ret Keyboard.idle
                 [104; 97; 110]),
          cs) /\
    keyboard_in_group
      (mk_state_machine
         (Some (fst (automaton_run keyboard_step keyboard_ret
                       Keyboard.idle [104; 97; 110])))
         prevf (Some Keyboard.error)) /\
    Forall (fun r => r = STATEM_STATE_CHANGED \/ r = STATEM_STATE_LOOPSELF)
      (snd (automaton_run keyboard_step keyboard_ret Keyboard.idle
              [104; 97; 110])).
Proof.
  apply (keyboard_process_follows_diagram 2
           (mk_state_machine None None None) [104; 97; 110]).
  lia.
Defined.

Lemma post_lookup_answer (d : Z) :
  first_enabled (transitions (Post.heap Post.state_post))
    (mk_event Post.EVENT_POST_ANSWER d) =
  if Post.int_of_ptr d =? 1
  then Some (mk_transition Post.EVENT_POST_ANSWER 1
               (Some Post.guard_post_fail) (Some Post.action_post_fail)
               (Some Post.state_postfail))
  else if Post.int_of_ptr d =? 2
  then Some (mk_transition Post.EVENT_POST_ANSWER 2
               (Some Post.guard_post_pass) (Some Post.action_post_pass)
               (Some Post.state_postpass))
  else None.
Proof. reflexivity. Qed.

Lemma post_lookup_other (ty d : Z) :
  ty <> Post.EVENT_POST_BREAKON ->
  ty <> Post.EVENT_POST_ANSWER ->
  first_enabled (transitions (Post.heap Post.state_post)) (mk_event ty d) =
  None.
Proof.
  intros H2 H4. unfold first_enabled, enabled.
  cbn -[Z.eqb Post.int_of_ptr].
  rewrite (proj2 (Z.eqb_neq Post.EVENT_POST_BREAKON ty)) by congruence.
  rewrite (proj2 (Z.eqb_neq Post.EVENT_POST_ANSWER ty)) by congruence.
  reflexivity.
Qed.

Lemma post_lookup_single (s : state_ref) (on ty d : Z) (next : state_ref) :
  transitions (Post.heap s) = [mk_transition on 0 None None (Some next)] ->
  ty <> on ->
  first_enabled (transitions (Post.heap s)) (mk_event ty d) = None.
Proof.
  intros -> Hne. unfold first_enabled, enabled. cbn -[Z.eqb].
  rewrite (proj2 (Z.eqb_neq on ty)) by congruence. reflexivity.
Qed.

Ltac post_done :=
  split; [reflexivity|]; split; [eexists; reflexivity|]; cbv; auto 10.

Lemma post_handle_event (k : nat) (s : state_ref) (prev : option state_ref)
    (ev : event) :
  In s [Post.state_root; Post.state_post; Post.state_postpass;
        Post.state_postfail; Post.state_postbreak] ->
  exists o,
    statem_handle_event Post.heap (S k)
      (Some (mk_state_machine (Some s) prev (Some Post.error_state)))
      (Some ev) = Some o /\
    retval o = post_ret s ev /\
    (exists prev',
       machine o =
       Some (mk_state_machine (Some (post_step s ev)) prev'
               (Some Post.error_state))) /\
    In (post_step s ev)
       [Post.state_root; Post.state_post; Post.state_postpass;
        Post.state_postfail; Post.state_postbreak].
Proof.
  destruct ev as [ty d]. intros Hin. simpl in Hin.
  destruct Hin as [<-|[<-|[<-|[<-|[<-|[]]]]]].
  - (* root *)
    destruct (Z.eqb_spec ty Post.EVENT_POST_START) as [->|Hne].
    + eexists. split.
      * apply (handle_event_here Post.heap k _ _ Post.state_root
                 (mk_transition Post.EVENT_POST_START 0 None None
                    (Some Post.state_post)) Post.state_post); reflexivity.
      * post_done.
    + assert (Hstep : post_step Post.state_root (mk_event ty d) =
                      Post.state_root).
      { cbv beta iota delta [post_step Post.state_root type].
        rewrite (proj2 (Z.eqb_neq _ _) Hne). reflexivity. }
      eexists. split.
      * apply (handle_event_ignored Post.heap k _ _ Post.state_root);
          [reflexivity | | reflexivity].
        apply (post_lookup_single Post.state_root Post.EVENT_POST_START
                 ty d Post.state_post); [reflexivity|exact Hne].
      * unfold post_ret. rewrite Hstep.
        post_done.
  - (* post *)
    destruct (Z.eqb_spec ty Post.EVENT_POST_BREAKON) as [->|Hne2].
    + eexists. split.
      * apply (handle_event_here Post.heap k _ _ Post.state_post
                 (mk_transition Post.EVENT_POST_BREAKON 0 None
                    (Some Post.action_post_break)
                    (Some Post.state_postbreak)) Post.state_postbreak);
          reflexivity.
      * post_done.
    + destruct (Z.eqb_spec ty Post.EVENT_POST_ANSWER) as [->|Hne4].
      * pose proof (post_lookup_answer d) as Hfind.
        assert (Hstep : post_step Post.state_post
                          (mk_event Post.EVENT_POST_ANSWER d) =
                        if Post.int_of_ptr d =? 1 then Post.state_postfail
                        else if Post.int_of_ptr d =? 2
                        then Post.state_postpass
                        else Post.state_post) by reflexivity.
        unfold post_ret. rewrite Hstep.
        destruct (Post.int_of_ptr d =? 1).
        -- eexists. split.
           ++ eapply handle_event_here;
                [reflexivity | exact Hfind | reflexivity | reflexivity].
           ++ post_done.
        -- destruct (Post.int_of_ptr d =? 2).
           ++ eexists. split.
              ** eapply handle_event_here;
                   [reflexivity | exact Hfind | reflexivity | reflexivity].
              ** post_done.
           ++ eexists. split.
              ** eapply handle_event_ignored;
                   [reflexivity | exact Hfind | reflexivity].
              ** post_done.
      * assert (Hstep : post_step Post.state_post (mk_event ty d) =
                        Post.state_post).
        { cbv beta iota delta [post_step Post.state_post type].
          rewrite (proj2 (Z.eqb_neq _ _) Hne2), (proj2 (Z.eqb_neq _ _) Hne4).
          reflexivity. }
        eexists. split.
        -- apply (handle_event_ignored Post.heap k _ _ Post.state_post);
             [reflexivity | | reflexivity].
           apply post_lookup_other; assumption.
        -- unfold post_ret. rewrite Hstep.
           post_done.
  - (* postpass *)
    eexists. split.
    + apply (final_state_no_change Post.heap (S k) _ _ Post.state_postpass);
        reflexivity.
    + post_done.
  - (* postfail *)
    eexists. split.
    + apply (final_state_no_change Post.heap (S k) _ _ Post.state_postfail);
        reflexivity.
    + post_done.
  - (* postbreak *)
    destruct (Z.eqb_spec ty Post.EVENT_POST_BREAKOFF) as [->|Hne].
    + eexists. split.
      * apply (handle_event_here Post.heap k _ _ Post.state_postbreak
                 (mk_transition Post.EVENT_POST_BREAKOFF 0 None None
                    (Some Post.state_post)) Post.state_post); reflexivity.
      * post_done.
    + assert (Hstep : post_step Post.state_postbreak (mk_event ty d) =
                      Post.state_postbreak).
      { cbv beta iota delta [post_step Post.state_postbreak type].
        rewrite (proj2 (Z.eqb_neq _ _) Hne). reflexivity. }
      eexists. split.
      * apply (handle_event_ignored Post.heap k _ _ Post.state_postbreak);
          [reflexivity | | reflexivity].
        apply (post_lookup_single Post.state_postbreak
                 Post.EVENT_POST_BREAKOFF ty d Post.state_post);
          [reflexivity|exact Hne].
      * unfold post_ret. rewrite Hstep.
        post_done.
Qed.

(** X11. The post example follows its diagram.  After [statem_init] with
    [state_root] and [state_error], whatever the machine object held before
    and whatever events are received, every call of [statem_handle_event] in
    the loop of [state_process] finishes within one iteration; the current
    state is the one the diagram gives (START leads from [root] to [post],
    BREAKON from [post] to [postbreak], BREAKOFF back to [post], ANSWER with
    a payload whose [int] value is 1 to [postfail] and 2 to [postpass]; any
    other event, and any event in [postpass] or [postfail], changes
    nothing); each call returns "no change" when the state stays, "final
    state reached" on entering [postpass] or [postfail] and "state changed"
    otherwise; the machine never enters the error state. *)
Theorem post_process_follows_diagram (fuel : nat) (garbage : state_machine)
    (evs : list event) :
  (1 <= fuel)%nat ->
  exists prevf cs,
    state_process Post.heap fuel garbage
      (Some Post.state_root) (Some Post.error_state) evs =
    Some (mk_state_machine
            (Some (fst (automaton_run post_step post_ret
                          Post.state_root evs)))
            prevf (Some Post.error_state),
          snd (automaton_run post_step post_ret Post.state_root evs),
          cs) /\
    Post.in_diagram
      (mk_state_machine
         (Some (fst (automaton_run post_step post_ret Post.state_root evs)))
         prevf (Some Post.error_state)) /\
    Forall (fun r => r = STATEM_STATE_NOCHANGE \/
                     r = STATEM_STATE_CHANGED \/
                     r = STATEM_FINAL_STATE_RECHED)
      (snd (automaton_run post_step post_ret Post.state_root evs)).
Proof.
  intros Hfuel.
  destruct fuel as [|k]; [lia|].
  destruct (handle_events_simulation Post.heap (S k)
              (fun s => In s [Post.state_root; Post.state_post;
                              Post.state_postpass; Post.state_postfail;
                              Post.state_postbreak])
              (fun ev : event => ev) post_step post_ret
              (Some Post.error_state)
              (fun s prev x Hs => post_handle_event k s prev x Hs)
              evs Post.state_root None)
    as (prevf & cs & Hrun & Hinv); [simpl; auto|].
  rewrite map_id in Hrun.
  exists prevf, cs. split; [exact Hrun|]. split.
  - unfold Post.in_diagram. cbn [state_current state_error].
    split; [|reflexivity].
    simpl in Hinv. destruct Hinv as [<-|[<-|[<-|[<-|[<-|[]]]]]]; auto 6.
  - apply automaton_run_rets. intros s x. unfold post_ret.
    destruct (Nat.eqb _ _); auto. destruct (_ || _); auto.
Qed.

Lemma post_process_follows_diagram_witness :
  exists prevf cs,
    state_process Post.heap 1 (mk_state_machine None None None)
      (Some Post.state_root) (Some Post.error_state)
      [mk_event Post.EVENT_POST_START 0; mk_event Post.EVENT_POST_ANSWER 2;
       mk_event Post.EVENT_POST_ANSWER 1] =
    Some (mk_state_machine
            (Some (fst (automaton_run post_step post_ret Post.state_root
                          [mk_event Post.EVENT_POST_START 0;
                           mk_event Post.EVENT_POST_ANSWER 2;
                           mk_event Post.EVENT_POST_ANSWER 1])))
            prevf (Some Post.error_state),
          snd (automaton_run post_step post_ret Post.state_root
                 [mk_event Post.EVENT_POST_START 0;
                  mk_event Post.EVENT_POST_ANSWER 2;
                  mk_event Post.EVENT_POST_ANSWER 1]),
          cs) /\
    Post.in_diagram
      (mk_state_machine
         (Some (fst (automaton_run post_step post_ret Post.state_root
                       [mk_event Post.EVENT_POST_START 0;
                        mk_event Post.EVENT_POST_ANSWER 2;
                        mk_event Post.EVENT_POST_ANSWER 1])))
         prevf (Some Post.error_state)) /\
    Forall (fun r => r = STATEM_STATE_NOCHANGE \/
                     r = STATEM_STATE_CHANGED \/
                     r = STATEM_FINAL_STATE_RECHED)
      (snd (automaton_run post_step post_ret Post.state_root
              [mk_event Post.EVENT_POST_START 0;
               mk_event Post.EVENT_POST_ANSWER 2;
               mk_event Post.EVENT_POST_ANSWER 1])).
Proof.
  apply (post_process_follows_diagram 1 (mk_state_machine None None None)).
  lia.
Defined.
